(** * Kapi keyframe engine: a shallow embedding of src/js/kapi.js

    JS numbers are modelled as exact rationals [Q] (or integers [Z] where
    the source only ever holds integers); [undefined] is [None].  The
    conversions [parseInt(number, 10)] on a finite number of moderate
    magnitude truncate toward zero, which is what [parseInt_num] does.
    The time-unit conversions of [_getRealKeyframe] and the start time
    faked by [gotoFrame] round every operation to a double, as module
    [F64] does. *)

From Stdlib Require Import ZArith QArith Qround Qabs List Bool String Ascii Lia Lqa Sorting.
From stdpp Require Import base list gmap strings.
Import ListNotations.
Open Scope Z_scope.
Set Warnings "-register-all".

(** ** Shared JavaScript helpers *)
Module JS.

(** [parseInt(x, 10)] for a finite number [x] written without exponent:
    truncation toward zero. *)
Definition parseInt_num (q : Q) : Z :=
  if Qle_bool 0 q then Qfloor q else - Qfloor (- q)%Q.

(** [arr[i]] on an array whose holes and out-of-range reads are [undefined]. *)
Definition get {A} (l : list (option A)) (i : nat) : option A :=
  match nth_error l i with Some v => v | None => None end.

(** [arr[i] = v]: in range it overwrites, past the end it extends the
    array with holes up to [i]. *)
Fixpoint set {A} (l : list (option A)) (i : nat) (v : option A) : list (option A) :=
  match l, i with
  | [], O => [v]
  | [], S j => None :: set [] j v
  | _ :: t, O => v :: t
  | x :: t, S j => x :: set t j v
  end.

(** [last(arr)] of the source: the last element or [undefined]. *)
Definition last {A} (l : list A) : option A :=
  match List.rev l with [] => None | x :: _ => Some x end.

End JS.

(** ** IEEE-754 double precision *)
Module F64.

(** [2^e] for any integer [e] *)
Definition pow2q (e : Z) : Q := if e <? 0 then 1 # Z.to_pos (2 ^ (- e)) else inject_Z (2 ^ e).

(** The binary exponent [e] of a positive rational [q]: [2^e <= q < 2^(e+1)]. *)
Definition qexp (q : Q) : Z :=
  let e := Z.log2 (Qnum q) - Z.log2 (Zpos (Qden q)) in
  if Qle_bool (pow2q e) q then e else e - 1.

(** [n / d] for [d > 0], rounded to the nearest integer, ties to even *)
Definition round_div (n d : Z) : Z :=
  let f := n / d in
  match Z.compare (2 * (n mod d)) d with
  | Lt => f
  | Gt => f + 1
  | Eq => if Z.even f then f else f + 1
  end.

(** A positive rational rounded to 53 significant bits, or to a multiple
    of the least subnormal [2^-1074], whichever is coarser. *)
Definition round_pos (a : Q) : Q :=
  let qe := Z.max (qexp a - 52) (-1074) in
  let y := (a / pow2q qe)%Q in
  (inject_Z (round_div (Qnum y) (Zpos (Qden y))) * pow2q qe)%Q.

(** The double nearest to [x] (round half to even); [None] when it rounds
    to an infinity. *)
Definition fl (x : Q) : option Q :=
  let x := Qred x in
  match Qcompare x 0 with
  | Eq => Some 0%Q
  | Gt => let r := round_pos x in if Qle_bool (pow2q 1024) r then None else Some r
  | Lt => let r := round_pos (- x) in if Qle_bool (pow2q 1024) r then None else Some (- r)%Q
  end.


(** The double nearest to [1e-6]: [Number.prototype.toString] writes a
    finite double [v] without exponent iff [fixed_min <= |v| < 1e21]. *)
Definition fixed_min : Q := 4722366482869645 # 4722366482869645213696.

(** [parseInt(v, 10)] on a finite double [v], which reads the decimal
    digits [String(v)] starts with.  For [fixed_min <= |v| < 2^53] these
    are the digits of the integer part, so the result is the truncation;
    outside that range [String(v)] has an exponent or rounded digits, and
    the result is not modelled ([None]). *)
Definition parseInt_double (v : Q) : option Z :=
  if Qeq_bool v 0 then Some 0
  else if Qle_bool fixed_min (Qabs v) && negb (Qle_bool (pow2q 53) (Qabs v))
  then Some (JS.parseInt_num v) else None.

End F64.

(** ** The tick driver [_updateState] *)
Module Tick.

(** [_getLatestKeyframeId(lookup)] with [inst._currentFrame = cf]: the
    loop [for (i = lookup.length - 1; i >= 0; i--)] scans indices [i-1]
    down to [0]. *)
Fixpoint scan_down (lookup : list Z) (cf : Z) (i : nat) : option nat :=
  match i with
  | O => None
  | S j =>
      match nth_error lookup j with
      | Some v => if v <? cf then Some j else scan_down lookup cf j
      | None => scan_down lookup cf j
      end
  end.

Definition _getLatestKeyframeId (lookup : list Z) (cf : Z) : Z :=
  if cf =? 0 then 0
  else if match JS.last lookup with Some l => l <? cf | None => false end
  then -1
  else match scan_down lookup cf (length lookup) with
       | Some j => Z.of_nat j
       | None => Z.of_nat (length lookup) - 1
       end.

(** The playback fields of [inst] that [_updateState] reads and writes. *)
Record state := mkState {
  loopStartTime : Q;
  reachedKeyframes : list (option Z);
  currentFrame : option Z;
  repsRemaining : Z;
  isStopped : bool
}.

(** What [_updateState] returns: [true], [false] or [undefined]. *)
Inductive ret := RetTrue | RetFalse | RetUndef.

Section Engine.
(** The timeline is fixed during a loop: sorted keyframe ids, the frame
    rate, the time of the first [play()], the puppet flags. *)
Variable keyframeIds : list Z.
Variable fps : Q.
Variable startTime : Q.
Variable isPuppet : bool.
Variable isPlaying : bool.

(** [inst._lastKeyframe = last(inst._keyframeIds)]; the engine only ticks
    with a non-empty list, the empty case is read as 0. *)
Definition lastKeyframe : Z :=
  match JS.last keyframeIds with Some k => k | None => 0 end.

(** [inst._animationDuration = 1000 * (inst._lastKeyframe / fps)]. *)
Definition animationDuration : Q := (1000 * (inject_Z lastKeyframe / fps))%Q.

(** The restart test [(loopLength > duration) && reached.length === ids.length]. *)
Definition loop_restarts (now : Q) (s : state) : bool :=
  negb (Qle_bool (now - loopStartTime s)%Q animationDuration)
  && (length (reachedKeyframes s) =? length keyframeIds)%nat.

(** [x || d] on a number: [d] when [x] is 0. *)
Definition or_num (x d : Q) : Q := if Qeq_bool x 0%Q then d else x.

(** The frame computed from the loop position,
    [parseInt(loopPosition * _lastKeyframe, 10)]. *)
Definition frame_of (loopLength : Q) : Z :=
  let loopPosition :=
    if Qeq_bool animationDuration 0 then 0%Q else (loopLength / animationDuration)%Q in
  JS.parseInt_num (loopPosition * inject_Z lastKeyframe)%Q.

(** [prevKeyframe]: the keyframe id latest before [cf], or the last one. *)
Definition prev_keyframe (cf : Z) : option Z :=
  let i := _getLatestKeyframeId keyframeIds cf in
  if i =? -1 then Some lastKeyframe else nth_error keyframeIds (Z.to_nat i).

(** Record [prevKeyframe] if [prevKeyframe > (last(reached) || 0)]. *)
Definition record_reached (pk : option Z) (r : list (option Z)) : list (option Z) :=
  let lr := match JS.last r with Some (Some v) => v | _ => 0 end in
  match pk with
  | Some p => if lr <? p then r ++ [Some p] else r
  | None => r
  end.

(** The keyframe-skip correction: compare the tail of the reached list
    with [keyframeIds] at the same index, and on mismatch force both the
    tail and the current frame to the id expected there. *)
Definition reachedKeyframeLastIndex (r : list (option Z)) : nat :=
  match r with [] => O | _ => pred (length r) end.

Definition skip_correct (r : list (option Z)) (cf : option Z)
  : list (option Z) * option Z :=
  let idx := reachedKeyframeLastIndex r in
  let expected := nth_error keyframeIds idx in
  if decide (JS.get r idx = expected) then (r, cf)
  else (JS.set r idx expected, expected).

(** [_updateState()] at wall-clock time [now] (drawing and events elided:
    they do not touch these fields). *)
Definition _updateState (now : Q) (s : state) : state * ret :=
  let loopLength := (now - loopStartTime s)%Q in
  let restart := loop_restarts now s in
  let dur := animationDuration in
  let s1 :=
    if restart then
      {| loopStartTime :=
           (startTime + inject_Z (JS.parseInt_num ((now - startTime) / or_num dur 1)) * dur)%Q;
         reachedKeyframes := [];
         currentFrame := currentFrame s;
         repsRemaining := repsRemaining s;
         isStopped := isStopped s |}
    else s in
  let loopLength1 := if restart then (loopLength - or_num dur loopLength)%Q else loopLength in
  let reps1 := if restart && (-1 <? repsRemaining s) then repsRemaining s - 1
               else repsRemaining s in
  if restart && (-1 <? repsRemaining s) && (reps1 =? 0) then
    ({| loopStartTime := loopStartTime s1; reachedKeyframes := [];
        currentFrame := Some lastKeyframe; repsRemaining := -1;
        isStopped := true |}, RetFalse)
  else if isPuppet && negb isPlaying then
    ({| loopStartTime := loopStartTime s1; reachedKeyframes := reachedKeyframes s1;
        currentFrame := currentFrame s1; repsRemaining := reps1;
        isStopped := isStopped s1 |}, RetUndef)
  else
    let cf := frame_of loopLength1 in
    let r := record_reached (prev_keyframe cf) (reachedKeyframes s1) in
    let '(r', cf') := skip_correct r (Some cf) in
    let cf'' :=
      match cf' with
      | Some c => if c <=? lastKeyframe then Some c
                  else if isPuppet then Some lastKeyframe else Some c
      | None => if isPuppet then Some lastKeyframe else None
      end in
    ({| loopStartTime := loopStartTime s1; reachedKeyframes := r';
        currentFrame := cf''; repsRemaining := reps1;
        isStopped := isStopped s1 |}, RetTrue).

(** The ids newly recorded in the reached list by each tick, for the
    ticks at the times [ts] up to (excluding) the tick that restarts the
    loop; the flag says whether such a restart tick came. *)
Fixpoint loop_log (ts : list Q) (s : state) : list (option Z) * bool :=
  match ts with
  | [] => ([], false)
  | t :: ts' =>
      if loop_restarts t s then ([], true)
      else
        let s' := fst (_updateState t s) in
        let '(l, d) := loop_log ts' s' in
        (drop (length (reachedKeyframes s)) (reachedKeyframes s') ++ l, d)
  end.

End Engine.
End Tick.

(** ** Strings: the character classes and regular expressions of the source *)
Module JStr.
Local Open Scope char_scope.

Definition is_digit (c : ascii) : bool :=
  let n := nat_of_ascii c in (48 <=? n)%nat && (n <=? 57)%nat.

Definition digit_val (c : ascii) : Z := Z.of_nat (nat_of_ascii c) - 48.

Definition hex_val (c : ascii) : option Z :=
  let n := nat_of_ascii c in
  if (48 <=? n)%nat && (n <=? 57)%nat then Some (Z.of_nat n - 48)
  else if (97 <=? n)%nat && (n <=? 102)%nat then Some (Z.of_nat n - 87)
  else if (65 <=? n)%nat && (n <=? 70)%nat then Some (Z.of_nat n - 55)
  else None.

Definition is_hex (c : ascii) : bool := match hex_val c with Some _ => true | None => false end.

(** [\s] on ASCII: space, tab, line feed, vertical tab, form feed, return. *)
Definition is_space (c : ascii) : bool :=
  let n := nat_of_ascii c in (n =? 32)%nat || ((9 <=? n)%nat && (n <=? 13)%nat).

(** [str.replace(/\s/g, '')] *)
Fixpoint strip_ws (s : string) : string :=
  match s with
  | EmptyString => EmptyString
  | String c t => if is_space c then strip_ws t else String c (strip_ws t)
  end.

Fixpoint skip_ws (s : string) : string :=
  match s with
  | String c t => if is_space c then skip_ws t else s
  | EmptyString => s
  end.

Definition is_op (c : ascii) : bool :=
  (c =? "+")%char || (c =? "-")%char || (c =? "*")%char || (c =? "/")%char.

(** [isModifierString]: [/^\s*(\+|\-|\*|\/)\=/] *)
Definition isModifierString (s : string) : bool :=
  match skip_ws s with
  | String o (String e _) => is_op o && (e =? "=")%char
  | _ => false
  end.

(** [getModifier]: the operator of the first match of [/(\+|\-|\*|\/)\=/]. *)
Fixpoint getModifier (s : string) : option ascii :=
  match s with
  | String o ((String e _) as t) =>
      if is_op o && (e =? "=")%char then Some o else getModifier t
  | String _ t => getModifier t
  | EmptyString => None
  end.

(** [str.replace(/(\+|\-|=|\*|\/)/g, '')] *)
Fixpoint strip_mod (s : string) : string :=
  match s with
  | EmptyString => EmptyString
  | String c t =>
      if is_op c || (c =? "=")%char then strip_mod t else String c (strip_mod t)
  end.

(** Leading run of characters satisfying [p], and the rest. *)
Fixpoint span (p : ascii -> bool) (s : string) : string * string :=
  match s with
  | String c t => if p c then let '(a, b) := span p t in (String c a, b) else (EmptyString, s)
  | EmptyString => (EmptyString, EmptyString)
  end.

Fixpoint digits_value (acc : Z) (s : string) : Z :=
  match s with
  | String c t => digits_value (10 * acc + digit_val c) t
  | EmptyString => acc
  end.

Definition is_empty (s : string) : bool :=
  match s with EmptyString => true | _ => false end.

(** Value of an unsigned decimal literal [d*] [.d*] with at least one digit. *)
Definition decimal_value (s : string) : option Q :=
  let '(ip, r) := span is_digit s in
  match r with
  | EmptyString => if is_empty ip then None else Some (inject_Z (digits_value 0 ip))
  | String c r' =>
      if (c =? ".")%char then
        let '(fp, r'') := span is_digit r' in
        if is_empty r'' && negb (is_empty ip && is_empty fp) then
          Some (inject_Z (digits_value 0 ip) +
                inject_Z (digits_value 0 fp) / inject_Z (10 ^ Z.of_nat (String.length fp)))%Q
        else None
      else None
  end.

Fixpoint rtrim_ws_rev (l : list ascii) : list ascii :=
  match l with c :: t => if is_space c then rtrim_ws_rev t else l | [] => [] end.

Definition trim (s : string) : string :=
  string_of_list_ascii (List.rev (rtrim_ws_rev (List.rev (list_ascii_of_string (skip_ws s))))).

End JStr.

(** ** JavaScript values held in actor states *)
Module Val.
Import JStr.

(** A JS number: finite (exact rational) or [NaN]. *)
Inductive num := Fin (q : Q) | NaN.

(** Property values: [undefined], numbers, strings, property functions
    (by name; their results are a parameter of the model), plain objects
    such as the custom-easing bag [{easeName: value}], and a reference to
    the actor object [inst._actors[actor]], which normalization stores in
    the [prototype] property of every keyframe state. *)
Inductive pval :=
  | VUndef
  | VNum (n : num)
  | VStr (s : string)
  | VFun (f : positive)
  | VObj (b : list (string * pval))
  | VRef (actor : string).

(** A JS object used as a property bag, in property insertion order. *)
Definition bag := list (string * pval).

Fixpoint get (b : bag) (k : string) : pval :=
  match b with
  | [] => VUndef
  | (k', v) :: t => if String.eqb k k' then v else get t k
  end.

(** [obj[k] = v]: overwrite in place, or append a new property. *)
Fixpoint put (b : bag) (k : string) (v : pval) : bag :=
  match b with
  | [] => [(k, v)]
  | (k', v') :: t => if String.eqb k k' then (k', v) :: t else (k', v') :: put t k v
  end.

(** [delete obj[k]] *)
Fixpoint del (b : bag) (k : string) : bag :=
  match b with
  | [] => []
  | (k', v') :: t => if String.eqb k k' then t else (k', v') :: del t k
  end.

Definition has (b : bag) (k : string) : bool :=
  existsb (fun kv => String.eqb k (fst kv)) b.

(** [Number(str)] on decimal literals; other literal forms (exponents,
    hexadecimal, [Infinity]) are read as [NaN] here. *)
Definition js_Number (s : string) : num :=
  let t := trim s in
  match t with
  | EmptyString => Fin 0
  | String c r =>
      if (c =? "+")%char then match decimal_value r with Some q => Fin q | None => NaN end
      else if (c =? "-")%char then match decimal_value r with Some q => Fin (- q) | None => NaN end
      else match decimal_value t with Some q => Fin q | None => NaN end
  end.

(** [parseInt(str, 10)]: optional sign, then the leading decimal digits. *)
Definition parseInt_str (s : string) : option Z :=
  let t := skip_ws s in
  let '(sign, r) :=
    match t with
    | String c r => if (c =? "-")%char then (-1, r) else if (c =? "+")%char then (1, r) else (1, t)
    | EmptyString => (1, t)
    end in
  let '(ds, _) := span is_digit r in
  if is_empty ds then None else Some (sign * digits_value 0 ds).

(** [parseInt(x, 10)] on a number *)
Definition parseInt_numv (n : num) : num :=
  match n with Fin q => Fin (inject_Z (JS.parseInt_num q)) | NaN => NaN end.

(** Number arithmetic; a division by zero (an infinity in JS) is not
    modelled and gives [NaN]. *)
Definition nadd (a b : num) : num :=
  match a, b with Fin x, Fin y => Fin (x + y) | _, _ => NaN end.
Definition nsub (a b : num) : num :=
  match a, b with Fin x, Fin y => Fin (x - y) | _, _ => NaN end.
Definition nmul (a b : num) : num :=
  match a, b with Fin x, Fin y => Fin (x * y) | _, _ => NaN end.
Definition ndiv (a b : num) : num :=
  match a, b with
  | Fin x, Fin y => if Qeq_bool y 0 then NaN else Fin (x / y)
  | _, _ => NaN
  end.

(** Decimal rendering of integers, as [String(n)] prints them. *)
Fixpoint digits_rev (fuel : nat) (n : Z) : string :=
  match fuel with
  | O => EmptyString
  | S f =>
      let d := String (ascii_of_nat (Z.to_nat (48 + n mod 10))) EmptyString in
      if n <? 10 then d else append (digits_rev f (n / 10)) d
  end.

Definition Z_to_string (n : Z) : string :=
  if n <? 0 then String "-" (digits_rev (S (Z.to_nat (Z.log2 (- n)))) (- n))
  else digits_rev (S (Z.to_nat (Z.log2 n))) n.

(** [Math.floor(x)] rendered into a string: an integer or ["NaN"]. *)
Definition floor_to_string (n : num) : string :=
  match n with Fin q => Z_to_string (Qfloor q) | NaN => "NaN" end.

End Val.

(** ** Time literals: [_getRealKeyframe] and [calcKeyframe] *)
Module RealKeyframe.
Import JStr Val.

(** The outcome of [_getRealKeyframe]: a frame, [NaN], a thrown error, or
    a result the model does not follow: a unit that names a member
    inherited from [Object.prototype] ([calcKeyframe["valueOf"]] and the
    like), which the source calls as a converter, or a converted number
    whose [parseInt] reads an exponent form or rounded digits. *)
Inductive outcome := KFrame (z : Z) | KNaN | KThrow | KUnmodelled.

Definition object_prototype_members : list string :=
  ["constructor"; "hasOwnProperty"; "isPrototypeOf"; "propertyIsEnumerable";
   "toLocaleString"; "toString"; "valueOf"; "__proto__"; "__defineGetter__";
   "__defineSetter__"; "__lookupGetter__"; "__lookupSetter__"]%string.

(** [calcKeyframe]: the converters of the two units at frame rate
    [fps], applied to the double [num] the quantifier string converts to;
    each product and quotient is rounded to a double, [None] standing for
    an infinite result. *)
Definition calcKeyframe (fps : Q) (unit : string) : option (Q -> option Q) :=
  if String.eqb unit "ms" then
    Some (fun num => match F64.fl (num * fps) with Some p => F64.fl (p / 1000) | None => None end)
  else if String.eqb unit "s" then Some (fun num => F64.fl (num * fps))
  else None.

(** [/\D+$/.exec(s)]: the longest run of non-digits ending the string. *)
Fixpoint take_while (p : ascii -> bool) (l : list ascii) : list ascii :=
  match l with c :: t => if p c then c :: take_while p t else [] | [] => [] end.

Definition trailing_nondigits (s : string) : string :=
  string_of_list_ascii
    (List.rev (take_while (fun c => negb (is_digit c)) (List.rev (list_ascii_of_string s)))).


(** [_getRealKeyframe(identifier)] with [inst._params.fps = fps]. *)
Definition _getRealKeyframe (fps : Q) (identifier : pval) : outcome :=
  match identifier with
  | VNum (Fin q) => KFrame (JS.parseInt_num q)
  | VNum NaN => KNaN
  | VStr s =>
      let t := strip_ws s in
      let '(quantifier, _) := span (fun c => is_digit c || (c =? ".")%char) t in
      if is_empty quantifier then KThrow
      else
        let unit := trailing_nondigits t in
        if is_empty unit then
          match parseInt_str quantifier with Some z => KFrame z | None => KNaN end
        else
          match calcKeyframe fps unit with
          | Some f =>
              match js_Number quantifier with
              | Fin q =>
                  match F64.fl q with
                  | Some num =>
                      match f num with
                      | Some v =>
                          match F64.parseInt_double v with
                          | Some z => KFrame z
                          | None => KUnmodelled
                          end
                      | None => KNaN
                      end
                  | None => KNaN
                  end
              | NaN => KNaN
              end
          | None =>
              if existsb (String.eqb unit) object_prototype_members then KUnmodelled else KThrow
          end
  | _ => KThrow
  end.

End RealKeyframe.

(** ** The immediate-action queue and [clearQueue] *)
Module Queue.

(** The queue is a JS array; a slot of it is an action or a hole. *)
Section WithAction.
Variable action : Type.

(** [queue.length = n]: truncate, or extend with holes. *)
Definition set_length (q : list (option action)) (n : nat) : list (option action) :=
  firstn n q ++ repeat None (n - length q).

(** [actorObj.clearQueue]: [queue.length = 1]. *)
Definition clearQueue (q : list (option action)) : list (option action) :=
  set_length q 1.

(** What the render loop of [_updateState] gets from the queue: nothing
    when [queue.length] is 0, else [queue[0]], whose [.events] is read at
    once, a [TypeError] when that slot is a hole. *)
Inductive head_read := NoAction | Head (a : action) | QTypeError.

Definition read_head (q : list (option action)) : head_read :=
  match q with
  | [] => NoAction
  | Some a :: _ => Head a
  | None :: _ => QTypeError
  end.

End WithAction.
End Queue.
(** ** [gotoFrame] *)
Module Goto.
Import Val RealKeyframe.

(** The engine fields that [stop] and [gotoFrame] touch; [rendered] lists
    the frames handed to [_updateActors], most recent last. *)
Record gstate := mkG {
  isStopped : bool;
  isPaused : bool;
  currentFrame : Z;
  loopStartTime : option Q;
  startTime : option Q;
  pausedAtTime : option Q;
  repsRemaining : Z;
  rendered : list Z
}.

Definition isPlaying (s : gstate) : bool := negb (isStopped s) && negb (isPaused s).

(** [stop()]: the timer fields are deleted, the loop count reset. *)
Definition stop (s : gstate) : gstate :=
  {| isStopped := true; isPaused := isPaused s; currentFrame := currentFrame s;
     loopStartTime := None; startTime := None; pausedAtTime := None;
     repsRemaining := -1; rendered := rendered s |}.


End Goto.

(** ** Property values: [extend], colours, modifiers and easing *)
Module Props.
Import JStr Val.

(** JS truthiness and [typeof] *)
Definition truthy (v : pval) : bool :=
  match v with
  | VUndef => false
  | VNum (Fin q) => negb (Qeq_bool q 0)
  | VNum NaN => false
  | VStr s => negb (is_empty s)
  | VFun _ | VObj _ | VRef _ => true
  end.

Definition typeof (v : pval) : string :=
  match v with
  | VUndef => "undefined"
  | VNum _ => "number"
  | VStr _ => "string"
  | VFun _ => "function"
  | VObj _ | VRef _ => "object"
  end.

Definition is_undef (v : pval) : bool := String.eqb (typeof v) "undefined".

(** [extend(child, parent, doOverwrite)] for a plain object [parent].  A
    nested object of [parent] goes into a fresh [{}] when [child[i]] is
    falsy or [doOverwrite] holds, else into the existing object [child[i]];
    when that existing value is a truthy primitive the property writes on
    it are lost (sloppy mode) and [child] is unchanged.  The [prototype]
    property and the actor reference are copied by reference.  Arrays are
    not modelled. *)
Fixpoint extend_obj (child : bag) (parent : pval) (doOverwrite : bool) {struct parent} : bag :=
  match parent with
  | VObj pb =>
      (fix go (child : bag) (pb : bag) : bag :=
         match pb with
         | [] => child
         | (i, v) :: rest =>
             let child' :=
               match v with
               | VObj _ =>
                   if negb (String.eqb i "prototype") then
                     let ci := get child i in
                     if negb (truthy ci) || doOverwrite
                     then put child i (VObj (extend_obj [] v doOverwrite))
                     else match ci with
                          | VObj cb => put child i (VObj (extend_obj cb v doOverwrite))
                          | _ => child
                          end
                   else if is_undef (get child i) || doOverwrite then put child i v else child
               | _ => if is_undef (get child i) || doOverwrite then put child i v else child
               end in
             go child' rest
         end) child pb
  | _ => child
  end.

Definition extend (child parent : bag) (doOverwrite : bool) : bag :=
  extend_obj child (VObj parent) doOverwrite.

(** [String(n)] for a number: integers and finite decimal fractions (up to
    20 decimals; the exponent forms of very small or large numbers are not
    modelled). *)
Definition is_integer (q : Q) : bool := Qeq_bool (inject_Z (Qfloor q)) q.

Fixpoint dec_places (q : Q) (k fuel : nat) : nat :=
  match fuel with
  | O => k
  | S f => if is_integer (q * inject_Z (10 ^ Z.of_nat k))%Q then k else dec_places q (S k) f
  end.

Definition pad_zeros (k : nat) (s : string) : string :=
  append (string_of_list_ascii (repeat "0"%char (k - String.length s))) s.

Definition Q_to_string (q : Q) : string :=
  if is_integer q then Z_to_string (Qfloor q)
  else
    let a := if Qle_bool 0 q then q else (- q)%Q in
    let k := dec_places a 0 20 in
    let m := Qfloor (a * inject_Z (10 ^ Z.of_nat k))%Q in
    append (if Qle_bool 0 q then "" else "-")
      (append (Z_to_string (m / 10 ^ Z.of_nat k))
         (append "." (pad_zeros k (Z_to_string (m mod 10 ^ Z.of_nat k))))).

Definition num_to_string (n : num) : string :=
  match n with Fin q => Q_to_string q | NaN => "NaN" end.

(** [Number(v)] of a property value *)
Definition to_number (v : pval) : num :=
  match v with
  | VNum n => n
  | VStr s => js_Number s
  | _ => NaN
  end.

(** *** Colours *)

Definition lower (c : ascii) : ascii :=
  let n := nat_of_ascii c in
  if (65 <=? n)%nat && (n <=? 90)%nat then ascii_of_nat (n + 32) else c.

(** [isHexString]: [/^#([0-9]|[a-f]){3}$/i] or the same with six digits. *)
Definition isHexString (s : string) : bool :=
  match s with
  | String c t =>
      (c =? "#")%char && forallb is_hex (list_ascii_of_string t)
      && ((String.length t =? 3)%nat || (String.length t =? 6)%nat)
  | EmptyString => false
  end.

(** [\d+\s*] then the character [sep]: what follows [sep]. *)
Definition digits_ws_then (sep : ascii) (s : string) : option string :=
  let '(ds, r) := span is_digit s in
  if is_empty ds then None
  else match skip_ws r with
       | String c r' => if (c =? sep)%char then Some r' else None
       | EmptyString => None
       end.

(** [isRGBString]: [/^rgb\(\d+\s*,\d+\s*,\d+\s*\)\s*$/i] *)
Definition isRGBString (s : string) : bool :=
  match s with
  | String r (String g (String b (String p t))) =>
      ((lower r =? "r") && (lower g =? "g") && (lower b =? "b") && (p =? "("))%char &&
      match digits_ws_then "," t with
      | Some t1 =>
          match digits_ws_then "," t1 with
          | Some t2 =>
              match digits_ws_then ")" t2 with
              | Some t3 => is_empty (skip_ws t3)
              | None => false
              end
          | None => false
          end
      | None => false
      end
  | _ => false
  end.

Definition isColorString (s : string) : bool := isHexString s || isRGBString s.

Fixpoint hex_value (acc : Z) (s : string) : Z :=
  match s with
  | String c t => hex_value (16 * acc + match hex_val c with Some v => v | None => 0 end) t
  | EmptyString => acc
  end.

(** [hexToDec(hex)] = [parseInt(hex, 16)]: sign, optional [0x], then the
    leading hexadecimal digits. *)
Definition hexToDec (s : string) : num :=
  let t := skip_ws s in
  let '(sign, r) :=
    match t with
    | String c r => if (c =? "-")%char then (-1, r) else if (c =? "+")%char then (1, r) else (1, t)
    | EmptyString => (1, t)
    end in
  let r := match r with
           | String z (String x r') =>
               if (z =? "0")%char && ((x =? "x")%char || (x =? "X")%char) then r' else r
           | _ => r
           end in
  let '(ds, _) := span is_hex r in
  if is_empty ds then NaN else Fin (inject_Z (sign * hex_value 0 ds)).

Fixpoint remove_hash (s : string) : string :=
  match s with
  | String c t => if (c =? "#")%char then remove_hash t else String c (remove_hash t)
  | EmptyString => EmptyString
  end.

(** [hexToRGBArr(hex)] on a string *)
Definition hexToRGBArr (hex : string) : list num :=
  let h := remove_hash hex in
  let h := match h with
           | String a (String b (String c EmptyString)) =>
               String a (String a (String b (String b (String c (String c EmptyString)))))
           | _ => h
           end in
  [hexToDec (substring 0 2 h); hexToDec (substring 2 2 h); hexToDec (substring 4 2 h)].

(** The matches of [/\d+/g] *)
Fixpoint runs (cur : list ascii) (l : list ascii) : list (list ascii) :=
  match l with
  | [] => match cur with [] => [] | _ => [List.rev cur] end
  | c :: t =>
      if is_digit c then runs (c :: cur) t
      else match cur with [] => runs [] t | _ => List.rev cur :: runs [] t end
  end.

Definition digit_runs (s : string) : list string :=
  map string_of_list_ascii (runs [] (list_ascii_of_string s)).

(** What [getRGBArr(str)] gives on a string: an array, [str] itself, or a
    [TypeError] when an [rgb...] string has no digits ([null[0]]). *)
Inductive rgb := RArr (l : list num) | RStr | RTypeError.

Definition getRGBArr (str : string) : rgb :=
  match str with
  | String c _ =>
      if (c =? "#")%char then RArr (hexToRGBArr str)
      else if String.prefix "rgb" str then
        match digit_runs str with
        | [] => RTypeError
        | arr =>
            let at_ i := match nth_error arr i with Some d => js_Number d | None => NaN end in
            RArr [at_ 0%nat; at_ 1%nat; at_ 2%nat]
        end
      else RStr
  | EmptyString => RStr
  end.

(** [hexToRGBStr(hexStr)] *)
Definition hexToRGBStr (hexStr : string) : string :=
  if isRGBString hexStr then hexStr
  else
    let arr := hexToRGBArr hexStr in
    append "rgb(" (append (num_to_string (nth 0 arr NaN)) (append ","
      (append (num_to_string (nth 1 arr NaN)) (append ","
        (append (num_to_string (nth 2 arr NaN)) ")"))))).

(** *** Dynamic properties *)

Definition isDynamic (v : pval) : bool :=
  match v with VStr s => isModifierString s | _ => false end
  || String.eqb (typeof v) "function".

Definition isKeyframeableProp (v : pval) : bool :=
  String.eqb (typeof v) "number" || isDynamic v
  || match v with VStr s => isColorString s | _ => false end.

(** [modifiers[op + '='](original, amount)]; [None] where [+] would
    stringify a function. *)
Definition modifiers (op : ascii) (original : pval) (amount : num) : option pval :=
  if (op =? "+")%char then
    match original with
    | VNum n => Some (VNum (nadd n amount))
    | VUndef => Some (VNum NaN)
    | VStr s => Some (VStr (append s (num_to_string amount)))
    | VObj _ | VRef _ => Some (VStr (append "[object Object]" (num_to_string amount)))
    | VFun _ => None
    end
  else
    let o := to_number original in
    Some (VNum (if (op =? "-")%char then nsub o amount
                else if (op =? "*")%char then nmul o amount
                else ndiv o amount)).

(** *** Easing *)

(** [kapi.tween.linear(t, b, c, d)] = [c * t / d + b] *)
Definition linear (t b c d : num) : num := nadd (ndiv (nmul c t) d) b.

(** [kapi.tween] as the core of kapi.js defines it (lines 2458-2463):
    [linear] only.  The Penner formulae that the end of the file attaches
    to [kapi.tween] (lines 2492-2638) are not among the names modelled
    here: an easing name other than ["linear"] is out of the model. *)
Definition tween (name : string) : option (num -> num -> num -> num -> num) :=
  if String.eqb name "linear" then Some linear else None.

Definition num_ge (a b : num) : bool :=
  match a, b with Fin x, Fin y => Qle_bool y x | _, _ => false end.

(** [x || 1] on a number *)
Definition or_one (n : num) : num :=
  match n with Fin q => if Qeq_bool q 0 then Fin 1 else n | NaN => Fin 1 end.

(** [applyEase(easing, previousKeyframe, nextKeyframe, currProp, nextProp)]
    with [inst._currentFrame = cf]; [None] is [undefined]. The callers pass
    an easing name already checked against [kapi.tween]. *)
Definition applyEase (easing : string) (previousKeyframe nextKeyframe currProp nextProp cf : num)
  : option num :=
  if num_ge cf previousKeyframe then
    match tween easing with
    | Some f => Some (f (nsub cf previousKeyframe) currProp (nsub nextProp currProp)
                        (or_one (nsub nextKeyframe previousKeyframe)))
    | None => None
    end
  else None.

(** [Math.floor(x)], with [Math.floor(undefined)] = [NaN] *)
Definition Math_floor (x : option num) : num :=
  match x with Some (Fin q) => Fin (inject_Z (Qfloor q)) | _ => NaN end.

End Props.

(** ** The timeline store and the keyframe operations *)
Module Store.
Import JStr Val Props.

(** Keyframe ids: the numbers [_getRealKeyframe] returns, integers or
    [NaN]; as object keys they are their decimal strings (["NaN"]). *)
Inductive kid := KId (z : Z) | KNaN_id.

#[export] Instance kid_eq_dec : EqDecision kid.
Proof. solve_decision. Defined.

#[export] Instance kid_countable : Countable kid.
Proof.
  refine (inj_countable' (fun k => match k with KId z => Some z | KNaN_id => None end)
            (fun o => match o with Some z => KId z | None => KNaN_id end) _).
  by intros [].
Defined.

(** [a === b] on numbers: [NaN] equals nothing. *)
Definition kid_eqb (a b : kid) : bool :=
  match a, b with KId x, KId y => Z.eqb x y | _, _ => false end.

(** [a < b] on numbers *)
Definition kid_lt (a b : kid) : bool :=
  match a, b with KId x, KId y => Z.ltb x y | _, _ => false end.

Definition kid_num (k : kid) : num :=
  match k with KId z => Fin (inject_Z z) | KNaN_id => NaN end.

(** An array slot holding a keyframe id, or [undefined] *)
Definition opt_kid_num (k : option kid) : num :=
  match k with Some k => kid_num k | None => NaN end.

(** The property name a keyframe id is stored under *)
Definition kid_key (k : kid) : string :=
  match k with KId z => Z_to_string z | KNaN_id => "NaN" end.

(** [parseInt(n, 10)] of a number, as a keyframe id *)
Definition parseInt_kid (n : num) : kid :=
  match n with Fin q => KId (JS.parseInt_num q) | NaN => KNaN_id end.

(** [inst._liveCopies[actor][id]] *)
Record lcopy := mkLC {
  copyOf : kid;
  originalKeyframeId : pval;
  originalKeyframeIdCopyOf : pval
}.

(** [inst._actorstateIndex[actor]]: the actor's sorted keyframe ids, with
    the [queue] (here the durations of the queued immediate actions) and
    [reachedKeyframes] properties that the source hangs on the array. *)
Record aidx := mkIdx {
  ids : list kid;
  queue : list num;
  reached : list Z
}.

(** [inst._keyframeCache[actor]] *)
Record kcache := mkCache { cfrom : bag; cto : bag }.

(** Messages written with [console.error] *)
Inductive log :=
  | NotAtKeyframe (actor : string) (k : kid)
  | NoKeyframe (actor : string) (k : kid)
  | CopySourceMissing (actor : string) (k : kid)
  | Caught.

(** The fields of [inst] the keyframe operations use, and the console.
    [actors] holds each actor's [params] bag. *)
Record store := mkStore {
  keyframes : gmap kid (gmap string bag);
  originalStates : gmap kid (gmap string bag);
  keyframeIds : list kid;
  actorstateIndex : gmap string aidx;
  actors : gmap string bag;
  liveCopies : gmap string (gmap kid lcopy);
  layerIndex : list string;
  reachedKeyframes : list kid;
  fps : Q;
  lastKeyframe : option kid;
  animationDuration : num;
  currentFrame : Z;
  keyframeCache : gmap string kcache;
  console : list log
}.

Definition set_keyframes (s : store) (v : gmap kid (gmap string bag)) : store :=
  {| keyframes := v; originalStates := originalStates s; keyframeIds := keyframeIds s; actorstateIndex := actorstateIndex s; actors := actors s; liveCopies := liveCopies s; layerIndex := layerIndex s; reachedKeyframes := reachedKeyframes s; fps := fps s; lastKeyframe := lastKeyframe s; animationDuration := animationDuration s; currentFrame := currentFrame s; keyframeCache := keyframeCache s; console := console s |}.

Definition set_originalStates (s : store) (v : gmap kid (gmap string bag)) : store :=
  {| keyframes := keyframes s; originalStates := v; keyframeIds := keyframeIds s; actorstateIndex := actorstateIndex s; actors := actors s; liveCopies := liveCopies s; layerIndex := layerIndex s; reachedKeyframes := reachedKeyframes s; fps := fps s; lastKeyframe := lastKeyframe s; animationDuration := animationDuration s; currentFrame := currentFrame s; keyframeCache := keyframeCache s; console := console s |}.

Definition set_keyframeIds (s : store) (v : list kid) : store :=
  {| keyframes := keyframes s; originalStates := originalStates s; keyframeIds := v; actorstateIndex := actorstateIndex s; actors := actors s; liveCopies := liveCopies s; layerIndex := layerIndex s; reachedKeyframes := reachedKeyframes s; fps := fps s; lastKeyframe := lastKeyframe s; animationDuration := animationDuration s; currentFrame := currentFrame s; keyframeCache := keyframeCache s; console := console s |}.

Definition set_actorstateIndex (s : store) (v : gmap string aidx) : store :=
  {| keyframes := keyframes s; originalStates := originalStates s; keyframeIds := keyframeIds s; actorstateIndex := v; actors := actors s; liveCopies := liveCopies s; layerIndex := layerIndex s; reachedKeyframes := reachedKeyframes s; fps := fps s; lastKeyframe := lastKeyframe s; animationDuration := animationDuration s; currentFrame := currentFrame s; keyframeCache := keyframeCache s; console := console s |}.

Definition set_actors (s : store) (v : gmap string bag) : store :=
  {| keyframes := keyframes s; originalStates := originalStates s; keyframeIds := keyframeIds s; actorstateIndex := actorstateIndex s; actors := v; liveCopies := liveCopies s; layerIndex := layerIndex s; reachedKeyframes := reachedKeyframes s; fps := fps s; lastKeyframe := lastKeyframe s; animationDuration := animationDuration s; currentFrame := currentFrame s; keyframeCache := keyframeCache s; console := console s |}.

Definition set_liveCopies (s : store) (v : gmap string (gmap kid lcopy)) : store :=
  {| keyframes := keyframes s; originalStates := originalStates s; keyframeIds := keyframeIds s; actorstateIndex := actorstateIndex s; actors := actors s; liveCopies := v; layerIndex := layerIndex s; reachedKeyframes := reachedKeyframes s; fps := fps s; lastKeyframe := lastKeyframe s; animationDuration := animationDuration s; currentFrame := currentFrame s; keyframeCache := keyframeCache s; console := console s |}.

Definition set_layerIndex (s : store) (v : list string) : store :=
  {| keyframes := keyframes s; originalStates := originalStates s; keyframeIds := keyframeIds s; actorstateIndex := actorstateIndex s; actors := actors s; liveCopies := liveCopies s; layerIndex := v; reachedKeyframes := reachedKeyframes s; fps := fps s; lastKeyframe := lastKeyframe s; animationDuration := animationDuration s; currentFrame := currentFrame s; keyframeCache := keyframeCache s; console := console s |}.

Definition set_reachedKeyframes (s : store) (v : list kid) : store :=
  {| keyframes := keyframes s; originalStates := originalStates s; keyframeIds := keyframeIds s; actorstateIndex := actorstateIndex s; actors := actors s; liveCopies := liveCopies s; layerIndex := layerIndex s; reachedKeyframes := v; fps := fps s; lastKeyframe := lastKeyframe s; animationDuration := animationDuration s; currentFrame := currentFrame s; keyframeCache := keyframeCache s; console := console s |}.

Definition set_fps (s : store) (v : Q) : store :=
  {| keyframes := keyframes s; originalStates := originalStates s; keyframeIds := keyframeIds s; actorstateIndex := actorstateIndex s; actors := actors s; liveCopies := liveCopies s; layerIndex := layerIndex s; reachedKeyframes := reachedKeyframes s; fps := v; lastKeyframe := lastKeyframe s; animationDuration := animationDuration s; currentFrame := currentFrame s; keyframeCache := keyframeCache s; console := console s |}.

Definition set_keyframeCache (s : store) (v : gmap string kcache) : store :=
  {| keyframes := keyframes s; originalStates := originalStates s; keyframeIds := keyframeIds s; actorstateIndex := actorstateIndex s; actors := actors s; liveCopies := liveCopies s; layerIndex := layerIndex s; reachedKeyframes := reachedKeyframes s; fps := fps s; lastKeyframe := lastKeyframe s; animationDuration := animationDuration s; currentFrame := currentFrame s; keyframeCache := v; console := console s |}.

Definition set_duration (s : store) (l : option kid) (d : num) : store :=
  {| keyframes := keyframes s; originalStates := originalStates s; keyframeIds := keyframeIds s; actorstateIndex := actorstateIndex s; actors := actors s; liveCopies := liveCopies s; layerIndex := layerIndex s; reachedKeyframes := reachedKeyframes s; fps := fps s; lastKeyframe := l; animationDuration := d; currentFrame := currentFrame s; keyframeCache := keyframeCache s; console := console s |}.

Definition log_error (s : store) (m : log) : store :=
  {| keyframes := keyframes s; originalStates := originalStates s; keyframeIds := keyframeIds s; actorstateIndex := actorstateIndex s; actors := actors s; liveCopies := liveCopies s; layerIndex := layerIndex s; reachedKeyframes := reachedKeyframes s; fps := fps s; lastKeyframe := lastKeyframe s; animationDuration := animationDuration s; currentFrame := currentFrame s; keyframeCache := keyframeCache s; console := console s ++ [m] |}.

(** *** A state and exception monad

    [Exn] is a thrown error (a [TypeError] on reading a property of
    [undefined], or an explicit [throw]) with the store as it was when it
    was thrown; [Gap] is behaviour outside the model. *)
Inductive result (A : Type) := Ok (s : store) (a : A) | Exn (s : store) | Gap.
Arguments Ok {A} s a.
Arguments Exn {A} s.
Arguments Gap {A}.

Definition M (A : Type) : Type := store -> result A.

Definition ret {A} (a : A) : M A := fun s => Ok s a.

Definition bind {A B} (m : M A) (f : A -> M B) : M B :=
  fun s => match m s with Ok s' a => f a s' | Exn s' => Exn s' | Gap => Gap end.

Notation "'let*' x ':=' m 'in' k" := (bind m (fun x => k))
  (at level 200, x name, m at level 100, k at level 200).

Definition throw {A} : M A := fun s => Exn s.
Definition unmodelled {A} : M A := fun _ => Gap.
Definition gets {A} (f : store -> A) : M A := fun s => Ok s (f s).
Definition modify (f : store -> store) : M unit := fun s => Ok (f s) tt.

(** Using a value that may be [undefined] as an object *)
Definition lift {A} (o : option A) : M A :=
  match o with Some a => ret a | None => throw end.

Fixpoint iter {X} (f : X -> M unit) (l : list X) : M unit :=
  match l with [] => ret tt | x :: t => let* _ := f x in iter f t end.

Definition present {K V} `{EqDecision K, Countable K} (m : gmap K V) (k : K) : bool :=
  match m !! k with Some _ => true | None => false end.

(** The names a plain object inherits from [Object.prototype]: reading one
    on an object without such an own property yields a function (or, for
    [__proto__], the prototype itself), which is truthy. *)
Definition inherited (name : string) : bool :=
  existsb (String.eqb name) RealKeyframe.object_prototype_members.

(** [inst._keyframes[k] && inst._keyframes[k][actor]] is truthy: an own
    state object, or a member inherited from [Object.prototype]. *)
Definition has_state (s : store) (k : kid) (actor : string) : bool :=
  match keyframes s !! k with Some m => present m actor || inherited actor | None => false end.

(** [arr.splice(i, 1)] at the first [i] with [arr[i] === k] *)
Fixpoint splice_first (k : kid) (l : list kid) : list kid :=
  match l with [] => [] | x :: t => if kid_eqb x k then t else x :: splice_first k t end.

Fixpoint find_index (k : kid) (l : list kid) : option nat :=
  match l with
  | [] => None
  | x :: t => if kid_eqb x k then Some 0%nat else option_map S (find_index k t)
  end.

Section Ops.

(** [sortArrayNumerically]: [Array.prototype.sort] with [(a, b) => a - b].
    With [NaN] ids the comparator is inconsistent and the order is left to
    the engine, so the sort is a parameter. *)
Variable sortArrayNumerically : list kid -> list kid.

(** [f.call(thisObj)] for the property function named [f] *)
Variable call : positive -> pval -> pval.

(** [_getRealKeyframe(identifier)] at the store's frame rate *)
Definition _getRealKeyframe (identifier : pval) : M kid := fun s =>
  match RealKeyframe._getRealKeyframe (fps s) identifier with
  | RealKeyframe.KFrame z => Ok s (KId z)
  | RealKeyframe.KNaN => Ok s KNaN_id
  | RealKeyframe.KThrow => Exn s
  | RealKeyframe.KUnmodelled => Gap
  end.

(** [_updateAnimationDuration] *)
Definition _updateAnimationDuration : M unit := modify (fun s =>
  let l := JS.last (keyframeIds s) in
  set_duration s l (nmul (Fin 1000) (ndiv (opt_kid_num l) (Fin (fps s))))).

(** [_updateKeyframeIdsList(keyframeId)] *)
Definition _updateKeyframeIdsList (k : kid) : M unit := modify (fun s =>
  if existsb (kid_eqb k) (keyframeIds s) then s
  else set_keyframeIds s (sortArrayNumerically (keyframeIds s ++ [k]))).

(** [_updateActorStateIndex(actor, {add: keyframeId})] *)
Definition _updateActorStateIndex (a : string) (k : kid) : M unit :=
  let* idx := gets (fun s => actorstateIndex s !! a) in
  let* idx := lift idx in
  if existsb (kid_eqb k) (ids idx) then ret tt
  else modify (fun s => set_actorstateIndex s
         (<[a := mkIdx (sortArrayNumerically (ids idx ++ [k])) (queue idx) (reached idx)]>
            (actorstateIndex s))).

(** The loop over the string properties of [newStateObj] in
    [_normalizeActorAcrossKeyframes]: colours are canonicalized, and a
    property that was dynamic in the previous state and is absent from the
    original state becomes ["+=0"].  [prev] is [prevStateObj], [orig] is
    [inst._originalStates[newStateId][actorId]]; the flag tells whether the
    read of [orig[prop]] threw. *)
Fixpoint norm_props (prev orig : option bag) (obj : bag) (keys : list string) : bag * bool :=
  match keys with
  | [] => (obj, false)
  | prop :: rest =>
      match get obj prop with
      | VStr str =>
          let prevProp := match prev with Some p => get p prop | None => VUndef end in
          let tempString := strip_ws str in
          if isColorString tempString then
            norm_props prev orig (put obj prop (VStr (hexToRGBStr tempString))) rest
          else if match prev with Some _ => true | None => false end
                  && truthy prevProp && isDynamic prevProp then
            match orig with
            | None => (obj, true)
            | Some o =>
                if is_undef (get o prop) then norm_props prev orig (put obj prop (VStr "+=0")) rest
                else norm_props prev orig obj rest
            end
          else norm_props prev orig obj rest
      | _ => norm_props prev orig obj rest
      end
  end.

(** [_normalizeActorAcrossKeyframes(actorId)], from the entry of the index
    after [prev] on. *)
Fixpoint normalize_from (actorId : string) (prev : option bag) (l : list kid) : M unit :=
  match l with
  | [] => ret tt
  | newStateId :: rest => fun s =>
      let stateCopy :=
        match prev with
        | None => option_map (fun params => extend [] params false) (actors s !! actorId)
        | Some p => Some (extend [] p false)
        end in
      match stateCopy, originalStates s !! newStateId with
      | Some stateCopy, Some os =>
          let stateCopy := del stateCopy "data" in
          let orig := os !! actorId in
          let newStateObj := match orig with Some o => extend stateCopy o true | None => stateCopy end in
          let newStateObj := put newStateObj "prototype" (VRef actorId) in
          match keyframes s !! newStateId with
          | Some kf =>
              let '(obj, threw) := norm_props prev orig newStateObj (map fst newStateObj) in
              let s' := set_keyframes s (<[newStateId := <[actorId := obj]> kf]> (keyframes s)) in
              if threw then Exn s' else normalize_from actorId (Some obj) rest s'
          | None => Exn s
          end
      | _, _ => Exn s
      end
  end.

Definition _normalizeActorAcrossKeyframes (actorId : string) : M unit :=
  let* idx := gets (fun s => actorstateIndex s !! actorId) in
  let* idx := lift idx in
  normalize_from actorId None (ids idx).

(** [_updateLiveCopies]: [keyframes[lc][actor] = keyframes[copyOf][actor]].
    An absent source state would store an [undefined]-valued property,
    which the model does not represent. *)
Definition update_live_copy (actorId : string) (lc : kid) (c : lcopy) : M unit := fun s =>
  match keyframes s !! lc, keyframes s !! copyOf c with
  | Some kl, Some kc =>
      match kc !! actorId with
      | Some v => Ok (set_keyframes s (<[lc := <[actorId := v]> kl]> (keyframes s))) tt
      | None => Gap
      end
  | _, _ => Exn s
  end.

Definition _updateLiveCopies : M unit :=
  let* lcs := gets liveCopies in
  iter (fun '(a, m) => iter (fun '(lc, c) => update_live_copy a lc c) (map_to_list m))
    (map_to_list lcs).

(** [_updateLayers]: [inst._actors[layerIndex[i]].params.layer = i] *)
Fixpoint update_layers_from (i : nat) (l : list string) : M unit :=
  match l with
  | [] => ret tt
  | a :: t =>
      let* p := gets (fun s => actors s !! a) in
      let* p := lift p in
      let* _ := modify (fun s => set_actors s
                  (<[a := put p "layer" (VNum (Fin (inject_Z (Z.of_nat i))))]> (actors s))) in
      update_layers_from (S i) t
  end.

Definition _updateLayers : M unit :=
  let* li := gets layerIndex in update_layers_from 0 li.

Definition _updateKeyframes (a : string) (k : kid) : M unit :=
  let* _ := _updateKeyframeIdsList k in
  let* _ := _updateActorStateIndex a k in
  let* _ := _normalizeActorAcrossKeyframes a in
  let* _ := _updateLiveCopies in
  _updateLayers.

(** The conversion at the start of [keyframe]: a string property equal to
    [String(+str.replace(rModifierComponents, ''))] becomes that number. *)
Definition convert_numeric (b : bag) : bag :=
  map (fun kv => match kv.2 with
                 | VStr str =>
                     let d := js_Number (strip_mod str) in
                     if String.eqb str (num_to_string d) then (kv.1, VNum d) else kv
                 | _ => kv
                 end) b.

(** [actorObj.keyframe(keyframeId, stateObj)] for the actor [a].  The
    final [delete stateObj.layer] acts on the caller's object, which
    normalization has already replaced in the store. *)
Definition keyframe (a : string) (keyframeId : pval) (stateObj : bag) : M unit :=
  let stateObj := convert_numeric stateObj in
  let orig := put (extend [] stateObj false) "_keyframeID" keyframeId in
  fun s =>
  match _getRealKeyframe keyframeId s with
  | Exn s' => Ok (log_error s' Caught) tt
  | Gap => Gap
  | Ok s' k =>
     (let* _ := (match k with KId z => if z <? 0 then throw else ret tt | KNaN_id => ret tt end) in
      let* _ := modify (fun s =>
        if match k with KId z => 0 <? z | KNaN_id => false end && negb (present (keyframes s) (KId 0))
        then set_keyframeIds (set_keyframes s (<[KId 0 := ∅]> (keyframes s))) (KId 0 :: keyframeIds s)
        else s) in
      let* _ := modify (fun s =>
        if present (keyframes s) k then s else set_keyframes s (<[k := ∅]> (keyframes s))) in
      let* _ := modify (fun s =>
        if present (originalStates s) k then s else set_originalStates s (<[k := ∅]> (originalStates s))) in
      let* _ := modify (fun s =>
        set_keyframes s (<[k := <[a := stateObj]> (default ∅ (keyframes s !! k))]> (keyframes s))) in
      let* _ := modify (fun s =>
        set_originalStates s (<[k := <[a := orig]> (default ∅ (originalStates s !! k))]> (originalStates s))) in
      let* _ := _updateKeyframes a k in
      _updateAnimationDuration) s'
  end.

(** [actorObj.remove(keyframeId)] for the actor [a]; [fuel] bounds the
    recursion through live copies.  The loop over
    [inst._liveCopies[actor]] visits the keys present when it starts and
    skips those deleted meanwhile; once the recursive call has deleted
    [inst._liveCopies[actor]] itself, the source goes on over the detached
    object, which the model does not follow. *)
Fixpoint remove (fuel : nat) (a : string) (keyframeId : pval) : M unit :=
  match fuel with
  | O => unmodelled
  | S fuel =>
    let* k := _getRealKeyframe keyframeId in
    let* here := gets (fun s => has_state s k a) in
    if here then
      let* _ := modify (fun s => set_keyframes s (alter (delete a) k (keyframes s))) in
      let* os := gets (fun s => originalStates s !! k) in
      let* os := lift os in
      let* _ := modify (fun s => set_originalStates s (<[k := delete a os]> (originalStates s))) in
      let* keyframeHasObjs := gets (fun s =>
        match keyframes s !! k with
        | Some m => match map_to_list m with [] => false | _ => true end
        | None => false
        end) in
      let* _ := (if negb keyframeHasObjs && negb (kid_eqb k (KId 0)) then
        modify (fun s =>
          let s := set_keyframes s (delete k (keyframes s)) in
          let s := set_originalStates s (delete k (originalStates s)) in
          let s := set_keyframeIds s (splice_first k (keyframeIds s)) in
          set_reachedKeyframes s (splice_first k (reachedKeyframes s)))
        else ret tt) in
      let* idx := gets (fun s => actorstateIndex s !! a) in
      (* an inherited [inst._actorstateIndex[a]] is a function or
         [Object.prototype], whose indices hold nothing: the loop finds no
         match *)
      let* _ := (match idx with
        | Some idx =>
            match find_index k (ids idx) with
            | Some i => modify (fun s => set_actorstateIndex s
                (<[a := mkIdx (take i (ids idx) ++ drop (S i) (ids idx)) (queue idx)
                          (if (i <=? length (reached idx))%nat then removelast (reached idx)
                           else reached idx)]> (actorstateIndex s)))
            | None => ret tt
            end
        | None => if inherited a then ret tt else throw
        end) in
      let* _ := modify (fun s =>
        match liveCopies s !! a with
        | Some m => if present m k then set_liveCopies s (<[a := delete k m]> (liveCopies s)) else s
        | None => s
        end) in
      let* snapshot := gets (fun s =>
        match liveCopies s !! a with Some m => map fst (map_to_list m) | None => [] end) in
      let* liveCopiesRemain :=
        (fix loop (l : list kid) (remain : bool) : M bool :=
           match l with
           | [] => ret remain
           | lc :: t =>
               let* cur := gets (fun s => liveCopies s !! a) in
               match cur with
               | None => unmodelled
               | Some m =>
                   match m !! lc with
                   | Some c =>
                       if kid_eqb (copyOf c) k then
                         let* _ := remove fuel a (VStr (kid_key lc)) in loop t true
                       else loop t remain
                   | None => loop t remain
                   end
               end
           end) snapshot false in
      let* _ := (if liveCopiesRemain then ret tt
                 else modify (fun s => set_liveCopies s (delete a (liveCopies s)))) in
      _updateAnimationDuration
    else
      modify (fun s => log_error s
        (if present (keyframes s) k then NotAtKeyframe a k else NoKeyframe a k))
  end.

(** [actorObj.removeAll()]: [while (index.length) remove(last(index))];
    [fuel] bounds the iterations as well. *)
Fixpoint removeAll (fuel : nat) (a : string) : M unit :=
  match fuel with
  | O => unmodelled
  | S f =>
      let* idx := gets (fun s => actorstateIndex s !! a) in
      match idx with
      | Some i =>
          match JS.last (ids i) with
          | Some k =>
              let* act := gets (fun s => actors s !! a) in
              let* _ := lift act in
              let* _ := remove fuel a (VNum (kid_num k)) in
              removeAll f a
          | None => ret tt
          end
      | None => ret tt
      end
  end.

(** [removeAllKeyframes()] *)
Definition removeAllKeyframes (fuel : nat) : M unit :=
  let* acts := gets actors in
  iter (fun '(a, _) => removeAll fuel a) (map_to_list acts).

(** [actorObj.liveCopy(keyframeId, keyframeIdToCopy)] *)
Definition liveCopy (a : string) (keyframeId keyframeIdToCopy : pval) : M unit :=
  let* k := _getRealKeyframe keyframeId in
  let* kc := _getRealKeyframe keyframeIdToCopy in
  let* here := gets (fun s => has_state s kc a) in
  if here then
    let* lcs := gets (fun s => liveCopies s !! a) in
    let* m := lift lcs in
    let* _ := modify (fun s => set_liveCopies s
                (<[a := <[k := mkLC kc keyframeId keyframeIdToCopy]> m]> (liveCopies s))) in
    keyframe a (VNum (kid_num k)) []
  else modify (fun s => log_error s (CopySourceMissing a kc)).

(** [kapi.add(actor, initialState)] for an actor given by its [draw]
    function; the id is [params.id || params.name] (a generated id is not
    modelled, nor the id [__proto__], whose assignments replace
    prototypes).  [typeof inst._actorstateIndex[id] === 'undefined'] fails
    for an own entry and for an inherited member alike.  Returns the id. *)
Definition add (initialState : bag) : M string :=
  let d := get initialState "data" in
  let params := put initialState "data" (if truthy d then d else VObj []) in
  let idv := let i := get params "id" in if truthy i then i else get params "name" in
  match idv with
  | VStr id =>
      if String.eqb id "__proto__" then unmodelled else
      let params := del params "name" in
      let* _ := modify (fun s =>
        if present (actorstateIndex s) id || inherited id then s
        else set_actorstateIndex s (<[id := mkIdx [] [] []]> (actorstateIndex s))) in
      let* _ := modify (fun s => set_liveCopies s (<[id := ∅]> (liveCopies s))) in
      let* _ := modify (fun s => set_layerIndex s (layerIndex s ++ [id])) in
      let* _ := modify (fun s => set_actors s
        (<[id := put params "layer" (VNum (Fin (inject_Z (Z.of_nat (length (layerIndex s)) - 1))))]>
           (actors s))) in
      ret id
  | _ => unmodelled
  end.

(** [kapi.framerate(newFramerate)] for a number [newFramerate]; there are
    no puppets. Returns the frame rate. *)
Definition framerate (fuel : nat) (newFramerate : num) : M Q :=
  match newFramerate with
  | Fin nf =>
    if negb (Qle_bool nf 0) then
      let* oldFps := gets fps in
      let fpsChange := ndiv (Fin nf) (Fin oldFps) in
      let* _ := modify (fun s => set_fps s (inject_Z (JS.parseInt_num nf))) in
      let* originalLiveCopies := gets liveCopies in
      let* _ := iter (fun '(a, m) =>
                  iter (fun '(lc, _) =>
                          let* act := gets (fun s => actors s !! a) in
                          let* _ := lift act in
                          remove fuel a (VStr (kid_key lc))) (map_to_list m))
                  (map_to_list originalLiveCopies) in
      let* originalStatesIndexCopy := gets actorstateIndex in
      let* originalStatesCopy := gets originalStates in
      let* originalReachedKeyframeCopy := gets reachedKeyframes in
      let* _ := removeAllKeyframes fuel in
      let* _ := iter (fun '(a, idx) =>
          let* _ := iter (fun k =>
              let* st := lift (originalStatesCopy !! k ≫= (fun m => m !! a)) in
              let* act := gets (fun s => actors s !! a) in
              let* _ := lift act in
              keyframe a (get st "_keyframeID") st) (List.rev (ids idx)) in
          let* cur := gets (fun s => actorstateIndex s !! a) in
          let* cur := lift cur in
          let n := length (queue idx) in
          let* _ := (if (length (queue cur) <? n)%nat then throw else ret tt) in
          let scaled := map (fun d => parseInt_numv (nmul d fpsChange)) (take n (queue cur))
                        ++ drop n (queue cur) in
          modify (fun s => set_actorstateIndex s
            (<[a := mkIdx (ids cur) scaled (reached idx)]> (actorstateIndex s))))
        (map_to_list originalStatesIndexCopy) in
      let* _ := iter (fun '(a, m) =>
          let* _ := modify (fun s => set_liveCopies s (<[a := ∅]> (liveCopies s))) in
          iter (fun '(_, c) =>
                  let* _ := lift (originalStatesCopy !! copyOf c ≫= (fun m => m !! a)) in
                  let* act := gets (fun s => actors s !! a) in
                  let* _ := lift act in
                  liveCopy a (originalKeyframeId c) (originalKeyframeIdCopyOf c))
               (map_to_list m))
        (map_to_list originalLiveCopies) in
      let* _ := modify (fun s =>
        let scaled := map (fun r => parseInt_kid (nmul (kid_num r) fpsChange)) originalReachedKeyframeCopy in
        set_reachedKeyframes s (scaled ++ drop (length scaled) (reachedKeyframes s))) in
      gets fps
    else gets fps
  | NaN => gets fps
  end.

(** *** Resolving an actor's state at the current frame *)

(** [_getLatestKeyframeId(lookup)] at [inst._currentFrame = cf] *)
Fixpoint scan_down (lookup : list kid) (cf : Z) (i : nat) : option nat :=
  match i with
  | O => None
  | S j =>
      match nth_error lookup j with
      | Some v => if kid_lt v (KId cf) then Some j else scan_down lookup cf j
      | None => scan_down lookup cf j
      end
  end.

Definition _getLatestKeyframeId (lookup : list kid) (cf : Z) : Z :=
  if cf =? 0 then 0
  else if match JS.last lookup with Some l => kid_lt l (KId cf) | None => false end then -1
  else match scan_down lookup cf (length lookup) with
       | Some j => Z.of_nat j
       | None => Z.of_nat (length lookup) - 1
       end.

(** [_getNextKeyframeId(lookup, latestKeyframeId)] *)
Definition _getNextKeyframeId (lookup : list kid) (latest : Z) : Z :=
  if latest =? Z.of_nat (length lookup) - 1 then latest else latest + 1.

(** [lookup[i]] *)
Definition index_at (l : list kid) (i : Z) : option kid :=
  if i <? 0 then None else nth_error l (Z.to_nat i).

(** [inst._keyframes[k][actor]], possibly [undefined] *)
Definition kf_of (k : option kid) (a : string) : M (option bag) :=
  let* kf := gets keyframes in
  match k with
  | Some k => let* m := lift (kf !! k) in ret (m !! a)
  | None => throw
  end.

(** The backward walk of [_calculateUncachedProperty] from index [j]:
    the values of [prop] down to the first static one, oldest first, and
    whether a static one was found. *)
Fixpoint walk (l : list kid) (a prop : string) (j : nat) (acc : list pval) : M (list pval * bool) :=
  let* st := kf_of (nth_error l j) a in
  let* st := lift st in
  let v := get st prop in
  if negb (isDynamic v) then ret (v :: acc, true)
  else match j with
       | O => ret (v :: acc, false)
       | S j' => walk l a prop j' (v :: acc)
       end.

(** Applying a dynamic value to [currentVal] *)
Definition apply_dynamic (thisObj : M (option bag)) (currentVal d : pval) : M pval :=
  match d with
  | VFun f =>
      let* th := thisObj in
      let r := call f (match th with Some b => VObj b | None => VUndef end) in
      ret (if truthy r then r else VNum (Fin 0))
  | VStr str =>
      match getModifier str with
      | Some op =>
          match modifiers op currentVal (js_Number (strip_mod str)) with
          | Some v => ret v
          | None => unmodelled
          end
      | None => throw
      end
  | _ => throw
  end.

Fixpoint apply_dynamics (thisObj : M (option bag)) (currentVal : pval) (l : list pval) : M pval :=
  match l with
  | [] => ret currentVal
  | d :: t => let* v := apply_dynamic thisObj currentVal d in apply_dynamics thisObj v t
  end.

(** [_calculateUncachedProperty(actorName, prop)] *)
Definition _calculateUncachedProperty (actorName prop : string) : M pval :=
  let* idx := gets (fun s => actorstateIndex s !! actorName) in
  let* idx := lift idx in
  let* cf := gets currentFrame in
  let stateIndex := ids idx in
  let latest := _getLatestKeyframeId stateIndex cf in
  let* r := (if latest <? 0 then ret ([], false)
             else walk stateIndex actorName prop (Z.to_nat latest) []) in
  let '(vals, found) := r in
  let* dynamicStateProps :=
    (if found then ret vals
     else let* p := gets (fun s => actors s !! actorName) in
          let* p := lift p in
          ret (get p prop :: vals)) in
  match dynamicStateProps with
  | [] => ret VUndef
  | currentVal :: rest =>
      apply_dynamics (kf_of (index_at stateIndex latest) actorName) currentVal rest
  end.

(** [fromState.prototype.id] *)
Definition proto_id (st : bag) : M string :=
  match get st "prototype" with
  | VRef id => ret id
  | VUndef => throw
  | _ => unmodelled
  end.

Definition cache_of (id : string) : M kcache :=
  let* c := gets (fun s => keyframeCache s !! id) in lift c.

Definition set_cache (id : string) (c : kcache) : M unit :=
  modify (fun s => set_keyframeCache s (<[id := c]> (keyframeCache s))).

(** [easing = kapi.tween[easing] ? easing : 'linear'] *)
Definition ease_name (v : pval) : string :=
  match v with
  | VStr n => match tween n with Some _ => n | None => "linear" end
  | _ => "linear"
  end.

(** [str.replace(/,$/, ')')] *)
Definition close_paren (s : string) : string :=
  match List.rev (list_ascii_of_string s) with
  | c :: t => if (c =? ",")%char then string_of_list_ascii (List.rev (")"%char :: t)) else s
  | [] => s
  end.

(** The colour branch: each channel eased, floored and joined. *)
Fixpoint blend (easing : string) (fk tk cf : num) (fl tl : list num) : string :=
  match fl with
  | [] => ""
  | f :: fr =>
      let t := match tl with x :: _ => x | [] => NaN end in
      append (append (num_to_string (Math_floor (applyEase easing fk tk f t cf))) ",")
        (blend easing fk tk cf fr (List.tl tl))
  end.

(** The loop of [_calculateCurrentFrameProps] over the properties of
    [fromState], with the running [easing] (a custom easing of a "to"
    property stays in force for the later properties). *)
Fixpoint frame_props (fromState toState : bag) (fk tk cf : num)
    (props : list (string * pval)) (easing : string) (currentFrameProps : bag) : M bag :=
  match props with
  | [] => ret currentFrameProps
  | (keyProp, fromProp) :: rest =>
      let* fromStateId := proto_id fromState in
      let fromProp :=
        match fromProp with
        | VObj ((_, v) :: _) => if String.eqb keyProp "prototype" then fromProp else v
        | _ => fromProp
        end in
      let* c := cache_of fromStateId in
      let* fromProp :=
        (if negb (is_undef (get (cfrom c) keyProp)) then ret (get (cfrom c) keyProp)
         else if isDynamic fromProp then
           let* u := _calculateUncachedProperty fromStateId keyProp in
           let* c := cache_of fromStateId in
           let* _ := set_cache fromStateId (mkCache (put (cfrom c) keyProp u) (cto c)) in
           ret u
         else ret fromProp) in
      if isKeyframeableProp fromProp then
        let toProp := get toState keyProp in
        let* toStateId := proto_id toState in
        let '(easing, toProp) :=
          match toProp with
          | VObj ((e, v) :: _) =>
              if String.eqb keyProp "prototype" then (easing, toProp)
              else (match tween e with Some _ => e | None => "linear" end, v)
          | _ => (easing, toProp)
          end in
        let* c := cache_of toStateId in
        let* toProp :=
          (if negb (is_undef (get (cto c) keyProp)) then ret (get (cto c) keyProp)
           else if isDynamic toProp then
             let* v := (match toProp with
                        | VFun f =>
                            let r := call f (VObj toState) in
                            ret (if truthy r then r else VNum (Fin 0))
                        | _ => apply_dynamic (ret None) fromProp toProp
                        end) in
             let* c := cache_of toStateId in
             let* _ := set_cache toStateId (mkCache (cfrom c) (put (cto c) keyProp v)) in
             ret v
           else ret toProp) in
        let* value :=
          (if negb (isKeyframeableProp toProp) || negb (String.eqb (typeof fromProp) (typeof toProp))
           then ret fromProp
           else match fromProp, toProp with
                | VStr fs, VStr ts =>
                    match getRGBArr fs, getRGBArr ts with
                    | RArr fl, RArr tl =>
                        ret (VStr (close_paren (append "rgb(" (blend easing fk tk cf fl tl))))
                    | RTypeError, _ => throw
                    | _, RTypeError => throw
                    | _, _ => unmodelled
                    end
                | VNum fn, VNum tn =>
                    ret (match applyEase easing fk tk fn tn cf with Some n => VNum n | None => VUndef end)
                | _, _ => unmodelled
                end) in
        frame_props fromState toState fk tk cf rest easing (put currentFrameProps keyProp value)
      else frame_props fromState toState fk tk cf rest easing currentFrameProps
  end.

(** [_calculateCurrentFrameProps(fromState, toState, fromKeyframe,
    toKeyframe, easing)] *)
Definition _calculateCurrentFrameProps (fromState toState : bag) (fromKeyframe toKeyframe : num)
    (easing : pval) : M bag :=
  let* cf := gets currentFrame in
  let* r := frame_props fromState toState fromKeyframe toKeyframe (Fin (inject_Z cf)) fromState
              (ease_name easing) [] in
  ret (extend r fromState false).

(** [_getActorState(actorName)]; [None] is [null]. *)
Definition _getActorState (actorName : string) : M (option bag) :=
  let* idx := gets (fun s => actorstateIndex s !! actorName) in
  let* idx := lift idx in
  let* cf := gets currentFrame in
  let actorKeyframeIndex := ids idx in
  let latest := _getLatestKeyframeId actorKeyframeIndex cf in
  if latest =? -1 then ret None
  else
    let next := _getNextKeyframeId actorKeyframeIndex latest in
    let* latestKeyframeProps := kf_of (index_at actorKeyframeIndex latest) actorName in
    let* nextKeyframeProps := kf_of (index_at actorKeyframeIndex next) actorName in
    let* lk := gets lastKeyframe in
    if (latest =? next) && match lk with Some k => kid_lt (KId 0) k | None => false end
    then ret None
    else
      let lastRecordedKeyframe :=
        match JS.last (reached idx) with Some r => r | None => 0 end in
      let* _ := modify (fun s =>
        if present (keyframeCache s) actorName then s
        else
          let s := set_keyframeCache s (<[actorName := mkCache [] []]> (keyframeCache s)) in
          match actorstateIndex s !! actorName with
          | Some i => set_actorstateIndex s (<[actorName := mkIdx (ids i) (queue i) []]> (actorstateIndex s))
          | None => s
          end) in
      let* _ := (if negb (latest =? lastRecordedKeyframe) && (lastRecordedKeyframe <? latest) then
        let* c := cache_of actorName in
        let* _ := set_cache actorName (mkCache (cto c) []) in
        modify (fun s =>
          match actorstateIndex s !! actorName with
          | Some i => set_actorstateIndex s
              (<[actorName := mkIdx (ids i) (queue i) (reached i ++ [latest])]> (actorstateIndex s))
          | None => s
          end)
        else ret tt) in
      let* toState := lift nextKeyframeProps in
      match latestKeyframeProps with
      | None => ret (Some [])
      | Some fromState =>
          let* r := _calculateCurrentFrameProps fromState toState
                      (opt_kid_num (index_at actorKeyframeIndex latest))
                      (opt_kid_num (index_at actorKeyframeIndex next)) (get toState "easing") in
          ret (Some r)
      end.

End Ops.

End Store.

(** *** Sequences of keyframe mutations *)
Module Mutations.
Import Val Store.

(** Keyframe 0 exists whenever a keyframe with a positive id does. *)
Definition kf0_inv (s : store) : Prop :=
  forall z, 0 < z -> is_Some (keyframes s !! KId z) -> is_Some (keyframes s !! KId 0).

(** A call of [actorObj.keyframe] or [actorObj.remove] *)
Inductive op :=
  | OpKeyframe (a : string) (keyframeId : pval) (stateObj : bag)
  | OpRemove (a : string) (keyframeId : pval).

Definition run_op (sortArrayNumerically : list kid -> list kid) (fuel : nat) (o : op) : M unit :=
  match o with
  | OpKeyframe a id st => keyframe sortArrayNumerically a id st
  | OpRemove a id => remove fuel a id
  end.

(** The calls one after the other; a call that throws leaves the store as
    it was at the throw, and the caller may go on from there.  [None] when
    a call leaves the model. *)
Fixpoint run_ops (sortArrayNumerically : list kid -> list kid) (fuel : nat) (l : list op) (s : store)
  : option store :=
  match l with
  | [] => Some s
  | o :: t =>
      match run_op sortArrayNumerically fuel o s with
      | Ok s' _ | Exn s' => run_ops sortArrayNumerically fuel t s'
      | Gap => None
      end
  end.

(** [m] keeps [Inv]: from a store satisfying [Inv], the store [m]
    returns or throws with satisfies it again. *)
Definition pres {A} (Inv : store -> Prop) (m : M A) : Prop :=
  forall s, Inv s -> match m s with Ok s' _ | Exn s' => Inv s' | Gap => True end.

(** [inst._keyframes[0]] exists. *)
Definition has_kf0 (s : store) : Prop := is_Some (keyframes s !! KId 0).

End Mutations.

(** ** Engines for the scenarios *)
Module Scenario.
Import Val Store.

(** [sortArrayNumerically] on ids: an insertion sort by [a - b]. *)
Fixpoint insert_id (x : kid) (l : list kid) : list kid :=
  match l with [] => [x] | y :: t => if kid_lt x y then x :: y :: t else y :: insert_id x t end.

Fixpoint sort_ids (l : list kid) : list kid :=
  match l with [] => [] | x :: t => insert_id x (sort_ids t) end.

(** Property functions are not used in the scenarios. *)
Definition no_call (f : positive) (thisObj : pval) : pval := VUndef.

(** A new instance at frame rate [fps], before any actor is added;
    [inst._currentFrame] is set by the update loop before any state is
    resolved. *)
Definition empty_store (fps : Q) : store :=
  mkStore ∅ ∅ [] ∅ ∅ ∅ [] [] fps None (Fin 0) 0 ∅ [].

(** [inst._currentFrame = cf], as the update loop sets it *)
Definition at_frame (cf : Z) : M unit := fun s =>
  Ok {| keyframes := keyframes s; originalStates := originalStates s; keyframeIds := keyframeIds s;
        actorstateIndex := actorstateIndex s; actors := actors s; liveCopies := liveCopies s;
        layerIndex := layerIndex s; reachedKeyframes := reachedKeyframes s; fps := fps s;
        lastKeyframe := lastKeyframe s; animationDuration := animationDuration s;
        currentFrame := cf; keyframeCache := keyframeCache s; console := console s |} tt.

(** Run [m] from [s] and read off a value of the final store. *)
Definition run {A B} (m : M A) (s : store) (f : store -> A -> B) : option B :=
  match m s with Ok s' a => Some (f s' a) | _ => None end.

Definition fuel : nat := 100.

Definition keyframe := Store.keyframe sort_ids.

(** An actor [a] with the initial parameters [params] and keyframes
    [(id, state)] created in order. *)
Definition build (params : bag) (kfs : list (pval * bag)) : M string :=
  let* a := add params in
  let* _ := iter (fun '(id, st) => keyframe a id st) kfs in
  ret a.

(** The value of [prop] in the state [_getActorState] resolves at frame
    [cf]. *)
Definition resolve (a : string) (cf : Z) (prop : string) : M pval :=
  let* _ := at_frame cf in
  let* r := _getActorState no_call a in
  ret (match r with Some b => get b prop | None => VUndef end).

(** [inst._keyframes[k][a][prop]] in the store *)
Definition stored (s : store) (a : string) (k : Z) (prop : string) : pval :=
  match keyframes s !! KId k ≫= (fun m => m !! a) with Some b => get b prop | None => VUndef end.

(** An actor with a keyframe at each identifier of [kids], at 20 frames
    per second; then [framerate(40)].  The result holds the keyframe ids
    and the animation duration before, the returned frame rate, and the
    keyframe ids and the duration after. *)
Definition framerate_scenario (kids : list pval) : option (list kid * num * Q * list kid * num) :=
  run (let* a := build [("name", VStr "a")] (map (fun i => (i, [("x", VNum (Fin 1))])) kids) in
       let* ids0 := gets keyframeIds in
       let* d0 := gets animationDuration in
       let* f := framerate sort_ids fuel (Fin 40) in
       ret (ids0, d0, f))
      (empty_store 20)
      (fun s r => let '(ids0, d0, f) := r in (ids0, d0, f, keyframeIds s, animationDuration s)).

(** The state bag [actorObj.keyframe] stores for actor ["a"] (layer 0)
    at keyframe [id] with [x] as its only own property. *)
Definition st3 (x : pval) (id : Z) : bag :=
  [("layer", VNum (Fin 0)); ("x", x); ("_keyframeID", VNum (Fin (inject_Z id))); ("prototype", VRef "a")].

(** Actor ["a"] with [x: 10] at keyframe 0 and [x: "+=5"] at keyframes
    [K] and [2K], at 30 frames per second. *)
Definition relative_store (K : Z) : store :=
  match build [("name", VStr "a")]
          [(VNum (Fin (inject_Z 0)), [("x", VNum (Fin 10))]);
           (VNum (Fin (inject_Z K)), [("x", VStr "+=5")]);
           (VNum (Fin (inject_Z (2*K))), [("x", VStr "+=5")])] (empty_store 30) with
  | Ok s _ => s
  | _ => empty_store 30
  end.


(** Actor ["a"] with [x: 10] at keyframe 0 and [x: "+=5"] at keyframe
    [K], at 30 frames per second. *)
Definition relative_store2 (K : Z) : store :=
  match build [("name", VStr "a")]
          [(VNum (Fin (inject_Z 0)), [("x", VNum (Fin 10))]);
           (VNum (Fin (inject_Z K)), [("x", VStr "+=5")])] (empty_store 30) with
  | Ok s _ => s
  | _ => empty_store 30
  end.

(** The store [s] with [inst._currentFrame = cf]. *)
Definition at_frame_store (cf : Z) (s : store) : store :=
  match at_frame cf s with Ok s' _ => s' | _ => s end.

(** Actor ["a"] with the parameter [x: 3] and the modifiers [x: "+=5"] at
    keyframe 0 and [x: "+=1"] at keyframe 10, at 30 frames per second. *)
Definition fallback_store : store :=
  match build [("name", VStr "a"); ("x", VNum (Fin 3))]
          [(VNum (Fin 0), [("x", VStr "+=5")]); (VNum (Fin 10), [("x", VStr "+=1")])] (empty_store 30) with
  | Ok s _ => s
  | _ => empty_store 30
  end.

(** The state that actor [a] has at the keyframe at index [j] of its
    [stateIndex] exists and its [prop] is [v]. *)
Definition stored_at (s : store) (stateIndex : list kid) (a prop : string) (j : nat) (v : pval) : Prop :=
  exists k st, nth_error stateIndex j = Some k /\ (keyframes s !! k ≫= (fun m => m !! a)) = Some st /\ get st prop = v.

(** An engine with one actor ["a"] and no keyframe yet. *)
Definition one_actor : store :=
  match add [("name", VStr "a")] (empty_store 20) with Ok s _ => s | _ => empty_store 20 end.

(** A keyframe at 10 created, then removed again. *)
Definition c5_ops : list Mutations.op :=
  [Mutations.OpKeyframe "a" (VNum (Fin 10)) [("x", VNum (Fin 1))]; Mutations.OpRemove "a" (VNum (Fin 10))].

(** The engine after [c5_ops] on [one_actor]. *)
Definition c5_final : store :=
  match Mutations.run_ops sort_ids fuel c5_ops one_actor with Some s => s | None => one_actor end.

End Scenario.

(** ** Time literals of the quantifier regex *)
Module TimeLiterals.
Import JStr.

(** A decimal literal [N] as the quantifier regex reads it: digits and
    dots only, ending in a digit. *)
Definition dec_char (c : ascii) : bool := is_digit c || (c =? ".")%char.

Fixpoint lit_ok (s : string) : bool :=
  match s with
  | EmptyString => false
  | String c EmptyString => is_digit c
  | String c t => dec_char c && lit_ok t
  end.


End TimeLiterals.


(** ** Event handlers: [bind], [unbind] and [_fireEvent] *)
Module Events.
Import Val.


(** [inst._events]: the handlers of each event, in the order they were
    bound; a handler is a function, compared by identity. *)
Abbreviation events := (gmap string (list positive)).

(** [inst._events[name]] for a name that is not an own property but a
    member inherited from [Object.prototype] is that member, not an array:
    the operations below then leave the model. *)
Definition inherited (e : string) : bool :=
  existsb (String.eqb e) RealKeyframe.object_prototype_members.

(** [bind(eventName, handler)]; [None] is the [TypeError] of calling
    [push] on an inherited member. *)
Definition bind (eventName handler : pval) (ev : events) : option events :=
  match eventName, handler with
  | VStr e, VFun h =>
      if inherited e then None
      else Some (<[e := default [] (ev !! e) ++ [h]]> ev)
  | _, _ => Some ev
  end.

(** The loop of [unbind]:
    [for (i = 0; i < l.length; i++) if (l[i] === handler) l.splice(i, 1);]
    [fuel] bounds the iterations ([l.length] of them suffice). *)
Fixpoint unbind_loop (handler : positive) (fuel i : nat) (l : list positive) : list positive :=
  match fuel with
  | O => l
  | S f =>
      if (i <? length l)%nat then
        if decide (nth_error l i = Some handler)
        then unbind_loop handler f (S i) (take i l ++ drop (S i) l)
        else unbind_loop handler f (S i) l
      else l
  end.

(** [unbind(eventName, handler)]; [None] where [inst._events[eventName]]
    is an inherited member. *)
Definition unbind (eventName handler : pval) (ev : events) : option events :=
  match eventName with
  | VStr e =>
      if inherited e then None
      else match ev !! e with
           | Some l =>
               match handler with
               | VFun h => Some (<[e := unbind_loop h (length l) 0 l]> ev)
               | _ => Some (<[e := []]> ev)
               end
           | None => Some ev
           end
  | _ => Some ev
  end.

(** [_fireEvent(eventName)]: the handlers called, in order, when they do
    not bind or unbind handlers themselves. *)
Definition _fireEvent (eventName : pval) (ev : events) : option (list positive) :=
  match eventName with
  | VStr e => if inherited e then None else Some (default [] (ev !! e))
  | _ => Some []
  end.

(** [bind(eventName, h)] for each [h] of [hs] in turn *)
Fixpoint bind_all (eventName : pval) (hs : list positive) (ev : events) : option events :=
  match hs with
  | [] => Some ev
  | h :: t => match bind eventName (VFun h) ev with Some ev' => bind_all eventName t ev' | None => None end
  end.

(** What the loop of [unbind] leaves: after each removal the element that
    moves into the removed slot is stepped over without a test. *)
Fixpoint skip_after (h : positive) (l : list positive) : list positive :=
  match l with
  | [] => []
  | x :: t =>
      if decide (x = h) then match t with [] => [] | y :: t' => y :: skip_after h t' end
      else x :: skip_after h t
  end.

End Events.


(** ** The circular easing formulae added to [kapi.tween] *)
Module Easing.
Import Val.









End Easing.


(** ** The update timer: [_scheduleUpdate] *)
Module Schedule.
Import Tick.

Section Timer.
Variable keyframeIds : list Z.
Variable fps : Q.
Variable startTime : Q.
Variable isPuppet : bool.
Variable isPlaying : bool.


End Timer.
End Schedule.


(** ** Playback control: [play], [pause], [repeat], [iterate] *)
Module Playback.
Import Val RealKeyframe Goto.

(** A timestamp field read as a condition: [undefined] and 0 are falsy. *)
Definition truthy_time (t : option Q) : bool :=
  match t with Some q => negb (Qeq_bool q 0) | None => false end.

(** [play()] at time [now]. A paused loop is resumed by shifting both
    start times by the pause duration [now - _pausedAtTime]; without a
    loop start time the loop starts over at frame 0. [None]: the shift
    with [_pausedAtTime] undefined, which gives [NaN] (not modelled). *)
Definition play (now : Q) (s : gstate) : option gstate :=
  if isPlaying s then Some s
  else
    let st := if truthy_time (startTime s) then startTime s else Some now in
    if truthy_time (loopStartTime s) then
      match loopStartTime s, st, pausedAtTime s with
      | Some l, Some t, Some p =>
          let pauseDuration := (now - p)%Q in
          Some {| isStopped := false; isPaused := false; currentFrame := currentFrame s;
                  loopStartTime := Some (l + pauseDuration)%Q;
                  startTime := Some (t + pauseDuration)%Q;
                  pausedAtTime := pausedAtTime s; repsRemaining := repsRemaining s;
                  rendered := rendered s |}
      | _, _, _ => None
      end
    else
      Some {| isStopped := false; isPaused := false; currentFrame := 0;
              loopStartTime := Some now; startTime := st;
              pausedAtTime := pausedAtTime s; repsRemaining := repsRemaining s;
              rendered := rendered s |}.


Definition set_reps (r : Z) (s : gstate) : gstate :=
  {| isStopped := isStopped s; isPaused := isPaused s; currentFrame := currentFrame s;
     loopStartTime := loopStartTime s; startTime := startTime s;
     pausedAtTime := pausedAtTime s; repsRemaining := r; rendered := rendered s |}.

(** [repetitions >= -1] on a number *)
Definition at_least_minus_one (n : num) : bool :=
  match n with Fin q => Qle_bool (-1) q | NaN => false end.

(** [repeat(repetitions)] at time [now] *)
Definition repeat (repetitions : pval) (now : Q) (s : gstate) : option gstate :=
  let r := match repetitions with
           | VNum n => if at_least_minus_one n then
                         match n with Fin q => JS.parseInt_num q + 1 | NaN => -1 end
                       else -1
           | _ => -1
           end in
  play now (set_reps r s).


End Playback.

(** * Proofs *)

(** ** The tick driver: monotonic coverage of keyframes *)
Module TickFacts.
Import Tick.

Lemma js_last_app {A} (l : list A) (x : A) : JS.last (l ++ [x]) = Some x.
Proof. unfold JS.last. rewrite rev_app_distr. reflexivity. Qed.

Lemma nth_error_lookup {A} (l : list A) (i : nat) : nth_error l i = l !! i.
Proof. revert i; induction l as [|x l IH]; intros [|i]; simpl; auto. Qed.

Lemma sorted_lookup_lt (l : list Z) (i j : nat) (a b : Z) :
  Sorted Z.lt l -> l !! i = Some a -> l !! j = Some b -> (i < j)%nat -> a < b.
Proof.
  intros Hs. apply Sorted_StronglySorted in Hs; [|intros x y z; lia].
  revert i j. induction Hs as [|h t _ IH Hall]; intros i j Ha Hb Hij.
  - discriminate.
  - destruct j as [|j]; [lia|]. simpl in Hb.
    destruct i as [|i].
    + simpl in Ha. injection Ha as <-.
      rewrite Forall_forall in Hall. apply Hall.
      eapply list_elem_of_lookup_2. exact Hb.
    + simpl in Ha. eapply IH; eauto. lia.
Qed.

Lemma sorted_lookup_le (l : list Z) (i j : nat) (a b : Z) :
  Sorted Z.lt l -> l !! i = Some a -> l !! j = Some b -> (i <= j)%nat -> a <= b.
Proof.
  intros Hs Ha Hb Hij. destruct (decide (i = j)) as [->|Hne].
  - rewrite Ha in Hb. injection Hb as ->. lia.
  - enough (a < b) by lia. eapply sorted_lookup_lt; eauto. lia.
Qed.

Section Coverage.
Variable ids : list Z.
Variable fps startTime : Q.
Variable isPuppet isPlaying : bool.
Hypothesis Hsorted : Sorted Z.lt ids.
Hypothesis Hne : ids <> [].

Lemma lastKeyframe_lookup :
  ids !! pred (length ids) = Some (lastKeyframe ids).
Proof.
  destruct (exists_last Hne) as [l' [x ->]].
  unfold lastKeyframe. rewrite js_last_app.
  rewrite length_app. simpl. rewrite Nat.add_1_r. simpl.
  rewrite lookup_app_r by lia. rewrite Nat.sub_diag. reflexivity.
Qed.

Lemma le_lastKeyframe (j : nat) (a : Z) : ids !! j = Some a -> a <= lastKeyframe ids.
Proof.
  intros Ha. eapply sorted_lookup_le; [exact Hsorted|exact Ha|apply lastKeyframe_lookup|].
  apply lookup_lt_Some in Ha. lia.
Qed.

(** [prevKeyframe] is always one of the keyframe ids. *)
Lemma prev_keyframe_index (cf p : Z) :
  prev_keyframe ids cf = Some p -> exists j, ids !! j = Some p.
Proof.
  unfold prev_keyframe. destruct (_ =? -1).
  - intros [= <-]. eexists. apply lastKeyframe_lookup.
  - intros H. exists (Z.to_nat (_getLatestKeyframeId ids cf)).
    rewrite <- H. symmetry. apply nth_error_lookup.
Qed.

Lemma reached_last (m : nat) :
  (1 <= m <= length ids)%nat ->
  exists a, ids !! pred m = Some a /\ JS.last (map Some (take m ids)) = Some (Some a).
Proof.
  intros Hm. destruct (lookup_lt_is_Some_2 ids (pred m)) as [a Ha]; [lia|].
  exists a. split; [exact Ha|].
  replace m with (S (pred m)) by lia. rewrite (take_S_r _ _ a Ha), map_app.
  apply js_last_app.
Qed.

Lemma js_get_app {A} (l : list (option A)) (x : option A) :
  JS.get (l ++ [x]) (length l) = x.
Proof. unfold JS.get. rewrite nth_error_app2, Nat.sub_diag by lia. reflexivity. Qed.

Lemma js_set_app {A} (l : list (option A)) (x v : option A) :
  JS.set (l ++ [x]) (length l) v = l ++ [v].
Proof. induction l as [|y l IH]; simpl; [reflexivity|]. rewrite IH; reflexivity. Qed.

Lemma lastIndex_S (r : list (option Z)) (n : nat) :
  length r = S n -> reachedKeyframeLastIndex r = n.
Proof. destruct r; simpl; [discriminate|]. intros [= ->]. reflexivity. Qed.

Lemma length_prefix (m : nat) : (m <= length ids)%nat -> length (map Some (take m ids)) = m.
Proof. intros H. rewrite length_map, length_take. lia. Qed.

(** One tick on a reached list that is a prefix of the ids: the outcome
    of [record_reached] followed by [skip_correct]. *)
Lemma skip_correct_prefix (m : nat) (pk : option Z) (cf : option Z) :
  (m <= length ids)%nat ->
  (forall p, pk = Some p -> exists j, ids !! j = Some p) ->
  exists m' cf',
    skip_correct ids (record_reached pk (map Some (take m ids))) cf
    = (map Some (take m' ids), cf') /\
    (1 <= m' <= length ids)%nat /\ (m' = m \/ m' = S m) /\
    (forall k p, ids !! m = Some k -> pk = Some p -> k < p ->
       m' = S m /\ cf' = Some k).
Proof.
  intros Hm Hpk.
  destruct m as [|m0].
  - (* empty reached list: the correction always stores ids[0] *)
    destruct ids as [|i0 rest] eqn:Eids; [congruence|].
    exists 1%nat. simpl take. simpl map.
    destruct pk as [p|].
    + unfold record_reached. simpl.
      destruct (0 <? p) eqn:E0.
      * unfold skip_correct. simpl.
        case_decide as E; unfold JS.get in E; simpl in E.
        -- exists cf. split; [injection E as ->; reflexivity|].
           split; [simpl; lia|]. split; [right; reflexivity|].
           intros k p' Hk Hp' Hlt. simpl in Hk. injection Hk as <-.
           injection Hp' as <-. injection E as ->. lia.
        -- exists (Some i0). split; [reflexivity|].
           split; [simpl; lia|]. split; [right; reflexivity|].
           intros k p' Hk _ _. simpl in Hk. injection Hk as <-. auto.
      * exists (Some i0). split; [reflexivity|].
        split; [simpl; lia|]. split; [right; reflexivity|].
        intros k p' Hk _ _. simpl in Hk. injection Hk as <-. auto.
    + exists (Some i0). split; [reflexivity|].
      split; [simpl; lia|]. split; [right; reflexivity|].
      intros k p' Hk Hp. discriminate.
  - destruct (reached_last (S m0)) as [a [Ha Hlast]]; [lia|]. simpl in Ha.
    assert (Hr : length (map Some (take (S m0) ids)) = S m0) by (apply length_prefix; lia).
    assert (Hget : JS.get (map Some (take (S m0) ids)) m0 = Some a).
    { rewrite (take_S_r _ _ a Ha), map_app.
      pose proof (length_prefix m0 ltac:(lia)) as Hl. rewrite <- Hl at 2.
      apply js_get_app. }
    assert (Hnopush : skip_correct ids (map Some (take (S m0) ids)) cf
                      = (map Some (take (S m0) ids), cf)).
    { unfold skip_correct. rewrite (lastIndex_S _ m0 Hr).
      rewrite Hget, nth_error_lookup, Ha.
      case_decide; [reflexivity|congruence]. }
    unfold record_reached. rewrite Hlast.
    destruct pk as [p|]; [destruct (a <? p) eqn:Eap|].
    + (* the tick records a new id [p] past the tail *)
      destruct (Hpk p eq_refl) as [j Hj].
      assert (Hjm : (S m0 <= j)%nat).
      { destruct (le_lt_dec (S m0) j) as [|Hlt]; [assumption|].
        pose proof (sorted_lookup_le ids j m0 p a Hsorted Hj Ha ltac:(lia)). lia. }
      destruct (lookup_lt_is_Some_2 ids (S m0)) as [k' Hk'].
      { apply lookup_lt_Some in Hj. lia. }
      assert (Hk'p : k' <= p) by (eapply sorted_lookup_le; eauto).
      exists (S (S m0)).
      assert (Htake : map Some (take (S (S m0)) ids) = map Some (take (S m0) ids) ++ [Some k']).
      { rewrite (take_S_r _ _ k' Hk'), map_app. reflexivity. }
      unfold skip_correct.
      rewrite (lastIndex_S _ (S m0)) by (rewrite length_app, Hr; simpl; lia).
      pose proof (js_get_app (map Some (take (S m0) ids)) (Some p)) as Hg.
      pose proof (js_set_app (map Some (take (S m0) ids)) (Some p) (Some k')) as Hs.
      rewrite Hr in Hg, Hs. cbv zeta. rewrite Hg, nth_error_lookup, Hk'.
      case_decide as E.
      * exists cf. split; [injection E as ->; rewrite Htake; reflexivity|].
        split; [apply lookup_lt_Some in Hk'; lia|]. split; [right; reflexivity|].
        intros k p' Hk Hp' Hlt. assert (k = k') by congruence. subst k.
        injection Hp' as <-. injection E as ->. lia.
      * exists (Some k'). split.
        { rewrite Hs, Htake. reflexivity. }
        split; [apply lookup_lt_Some in Hk'; lia|]. split; [right; reflexivity|].
        intros k p' Hk _ _. assert (k = k') by congruence. subst k. auto.
    + exists (S m0), cf. split; [exact Hnopush|].
      split; [lia|]. split; [left; reflexivity|].
      intros k p' Hk [= <-] Hlt.
      pose proof (sorted_lookup_lt ids m0 (S m0) a k Hsorted Ha Hk ltac:(lia)). lia.
    + exists (S m0), cf. split; [exact Hnopush|].
      split; [lia|]. split; [left; reflexivity|].
      intros k p' Hk Hp. discriminate.
Qed.

(** A tick that does not restart the loop keeps the reached list a
    prefix of the ids, extends it by at most the next id, and forces the
    current frame to that id when the frame jumped past it. *)
Lemma update_no_restart (t : Q) (s : state) (m : nat) :
  reachedKeyframes s = map Some (take m ids) -> (m <= length ids)%nat ->
  loop_restarts ids fps t s = false ->
  exists m',
    reachedKeyframes (fst (_updateState ids fps startTime isPuppet isPlaying t s))
      = map Some (take m' ids) /\ (m' <= length ids)%nat /\ (m' = m \/ m' = S m) /\
    ((isPuppet && negb isPlaying) = false ->
     forall k p, ids !! m = Some k ->
       prev_keyframe ids (frame_of ids fps (t - loopStartTime s)) = Some p -> k < p ->
       m' = S m /\
       currentFrame (fst (_updateState ids fps startTime isPuppet isPlaying t s)) = Some k).
Proof.
  intros Hr Hm Hnr. unfold _updateState. rewrite Hnr. simpl andb. cbv iota.
  destruct (isPuppet && negb isPlaying) eqn:Epup.
  - exists m. simpl. split; [exact Hr|]. split; [exact Hm|]. split; [left; reflexivity|].
    discriminate.
  - rewrite Hr.
    destruct (skip_correct_prefix m
                (prev_keyframe ids (frame_of ids fps (t - loopStartTime s)))
                (Some (frame_of ids fps (t - loopStartTime s))) Hm
                (prev_keyframe_index _))
      as [m' [cf' [E [Hm' [Hstep Hforce]]]]].
    rewrite E. exists m'. simpl. split; [reflexivity|]. split; [lia|].
    split; [exact Hstep|]. intros _ k p Hk Hp Hlt.
    destruct (Hforce k p Hk Hp Hlt) as [-> ->]. split; [reflexivity|].
    rewrite (proj2 (Z.leb_le k (lastKeyframe ids))); [reflexivity|].
    eapply le_lastKeyframe. exact Hk.
Qed.

Lemma loop_restarts_full (t : Q) (s : state) (m : nat) :
  reachedKeyframes s = map Some (take m ids) -> (m <= length ids)%nat ->
  loop_restarts ids fps t s = true -> reachedKeyframes s = map Some ids.
Proof.
  intros Hr Hm H. unfold loop_restarts in H. apply andb_prop in H as [_ H].
  apply Nat.eqb_eq in H. rewrite Hr, length_prefix in H by exact Hm. subst m.
  rewrite Hr, take_ge by lia. reflexivity.
Qed.

Lemma drop_prefix (m m' : nat) :
  (m' = m \/ m' = S m) -> (m' <= length ids)%nat ->
  map Some (take m ids) ++ drop m (map Some (take m' ids)) = map Some (take m' ids).
Proof.
  intros [->| ->] Hle.
  - rewrite drop_ge by (rewrite length_prefix; lia). apply app_nil_r.
  - rewrite <- (take_drop m (map Some (take (S m) ids))) at 2.
    f_equal. rewrite firstn_map, take_take. f_equal. f_equal. lia.
Qed.

Lemma restart_tick (t : Q) (s : state) (m : nat) :
  reachedKeyframes s = map Some (take m ids) -> (m <= length ids)%nat ->
  loop_restarts ids fps t s = true ->
  exists m', (m' <= 1)%nat /\
    reachedKeyframes (fst (_updateState ids fps startTime isPuppet isPlaying t s))
      = map Some (take m' ids).
Proof.
  intros Hr Hm Hre. unfold _updateState. rewrite Hre. simpl andb.
  assert (Hgo : forall pk cf, (forall p, pk = Some p -> exists j, ids !! j = Some p) ->
    exists m', (m' <= 1)%nat /\ fst (skip_correct ids (record_reached pk []) cf)
                                = map Some (take m' ids)).
  { intros pk cf Hpk.
    destruct (skip_correct_prefix 0 pk cf ltac:(lia) Hpk) as [m' [cf' [E [Hm' [Hstep _]]]]].
    exists m'. simpl in E. rewrite E. split; [lia|reflexivity]. }
  destruct (-1 <? repsRemaining s); simpl;
    [destruct (repsRemaining s - 1 =? 0); simpl; [exists O; split; [lia|reflexivity]|]|];
    (destruct (isPuppet && negb isPlaying); simpl; [exists O; split; [lia|reflexivity]|]);
    match goal with
    | |- context [skip_correct ids (record_reached ?pk []) ?cf] =>
        destruct (Hgo pk cf (prev_keyframe_index _)) as [m' [Hm' E]];
        destruct (skip_correct ids (record_reached pk []) cf) as [r' c'];
        exists m'; split; [exact Hm'|exact E]
    end.
Qed.

Lemma loop_log_prefix (ts : list Q) :
  forall (s : state) (m : nat),
  reachedKeyframes s = map Some (take m ids) -> (m <= length ids)%nat ->
  let '(log, done) := loop_log ids fps startTime isPuppet isPlaying ts s in
  (reachedKeyframes s ++ log) `prefix_of` map Some ids /\
  (done = true -> reachedKeyframes s ++ log = map Some ids).
Proof.
  induction ts as [|t ts IH]; intros s m Hr Hm; simpl.
  - rewrite app_nil_r, Hr. split; [|discriminate].
    rewrite <- (take_drop m ids) at 2. rewrite map_app. eexists. reflexivity.
  - destruct (loop_restarts ids fps t s) eqn:Ere.
    + rewrite app_nil_r. rewrite (loop_restarts_full t s m Hr Hm Ere).
      split; [reflexivity|auto].
    + destruct (update_no_restart t s m Hr Hm Ere) as [m' [Hr' [Hm' [Hstep _]]]].
      specialize (IH _ m' Hr' Hm').
      destruct (loop_log ids fps startTime isPuppet isPlaying ts _) as [l d].
      rewrite app_assoc, Hr' , Hr, length_prefix by exact Hm.
      rewrite drop_prefix by assumption. rewrite <- Hr'. exact IH.
Qed.

End Coverage.

(** C1 (monotonic coverage and keyframe-skip correction).  For sorted,
    distinct, non-empty keyframe ids and any sequence of tick times:
    (a) starting from a reached list that is a prefix of the ids (the
    empty list at the start of a loop), the ids recorded by the ticks of
    the loop extend it along the sorted ids, and the loop only restarts
    once the recorded list is exactly the sorted ids; (b) a tick whose
    frame jumps past the next expected id [k] records [k] (not the later
    id it reached) and forces the current frame handed to the actors to
    [k]; (c) a restarting tick finds all ids reached and opens the next
    loop with at most the first id recorded. *)
Theorem C1_monotonic_coverage (ids : list Z) (fps startTime : Q)
    (isPuppet isPlaying : bool)
    (Hsorted : Sorted Z.lt ids) (Hne : ids <> []) :
  (forall (ts : list Q) (s : state) (m : nat),
     reachedKeyframes s = map Some (take m ids) -> (m <= length ids)%nat ->
     let '(log, done) := loop_log ids fps startTime isPuppet isPlaying ts s in
     (reachedKeyframes s ++ log) `prefix_of` map Some ids /\
     (done = true -> reachedKeyframes s ++ log = map Some ids)) /\
  (forall (t : Q) (s : state) (m : nat) (k p : Z),
     reachedKeyframes s = map Some (take m ids) -> (m <= length ids)%nat ->
     loop_restarts ids fps t s = false -> (isPuppet && negb isPlaying) = false ->
     ids !! m = Some k ->
     prev_keyframe ids (frame_of ids fps (t - loopStartTime s)) = Some p -> k < p ->
     reachedKeyframes (fst (_updateState ids fps startTime isPuppet isPlaying t s))
       = map Some (take (S m) ids) /\
     currentFrame (fst (_updateState ids fps startTime isPuppet isPlaying t s)) = Some k) /\
  (forall (t : Q) (s : state) (m : nat),
     reachedKeyframes s = map Some (take m ids) -> (m <= length ids)%nat ->
     loop_restarts ids fps t s = true ->
     reachedKeyframes s = map Some ids /\
     exists m', (m' <= 1)%nat /\
       reachedKeyframes (fst (_updateState ids fps startTime isPuppet isPlaying t s))
         = map Some (take m' ids)).
Proof.
  split; [|split].
  - intros ts s m. apply loop_log_prefix; assumption.
  - intros t s m k p Hr Hm Hnr Hpup Hk Hp Hlt.
    destruct (update_no_restart ids fps startTime isPuppet isPlaying Hsorted Hne t s m Hr Hm Hnr)
      as [m' [Hr' [_ [_ Hforce]]]].
    destruct (Hforce Hpup k p Hk Hp Hlt) as [-> Hcf]. split; assumption.
  - intros t s m Hr Hm Hre. split.
    + eapply loop_restarts_full; eassumption.
    + eapply restart_tick; eassumption.
Qed.

Lemma C1_witness :
  Sorted Z.lt [0; 10; 20] /\ [0; 10; 20] <> [] /\
  (forall (ts : list Q) (s : state) (m : nat),
     reachedKeyframes s = map Some (take m [0; 10; 20]) -> (m <= 3)%nat ->
     let '(log, done) := loop_log [0; 10; 20] 20 0 false true ts s in
     (reachedKeyframes s ++ log) `prefix_of` map Some [0; 10; 20] /\
     (done = true -> reachedKeyframes s ++ log = map Some [0; 10; 20])).
Proof.
  assert (Hs : Sorted Z.lt [0; 10; 20]) by (repeat constructor; lia).
  assert (Hn : [0; 10; 20] <> []) by discriminate.
  split; [exact Hs|]. split; [exact Hn|].
  exact (proj1 (C1_monotonic_coverage [0; 10; 20] 20 0 false true Hs Hn)).
Defined.

End TickFacts.

(** ** Time literals *)
Module F64Facts.
Import F64.

(** The rounding of [1e-6] is [fixed_min]. *)
Lemma fixed_min_fl : fl (1 # 1000000) = Some fixed_min.
Proof. vm_compute. reflexivity. Qed.



















End F64Facts.

Module RealKeyframeFacts.
Import JStr Val RealKeyframe TimeLiterals.
#[local] Arguments String.append : simpl nomatch.













Lemma quantifier_nonempty (lit : string) : lit_ok lit = true -> is_empty lit = false.
Proof. destruct lit; [discriminate|reflexivity]. Qed.


Lemma parseInt_num_nonneg (q : Q) : (0 <= q)%Q -> JS.parseInt_num q = Qfloor q.
Proof. intros H. unfold JS.parseInt_num. apply Qle_bool_iff in H. rewrite H. reflexivity. Qed.













End RealKeyframeFacts.

(** ** The immediate-action queue *)
Module QueueFacts.
Import Queue.

(** Claim C9: [clearQueue] keeps exactly the head of a non-empty queue, but
    on an empty queue it does not leave the queue empty: [queue.length = 1]
    makes it a one-slot array holding a hole, which the render loop then
    dereferences. *)
Theorem C9_clearQueue_empty (A : Type) (a : A) (q : list (option A)) :
  clearQueue A (Some a :: q) = [Some a] /\
  clearQueue A [] = [None] /\
  length (clearQueue A []) = 1%nat /\
  read_head A [] = NoAction A /\
  read_head A (clearQueue A []) = QTypeError A.
Proof. repeat split. Qed.

End QueueFacts.

(** ** [gotoFrame] *)
Module GotoFacts.
Import Val RealKeyframe Goto.



End GotoFacts.

(** ** Tweened frame properties *)
Module FramePropsFacts.
Import Val Props Store Scenario.
Open Scope string_scope.

(** Claim C2: actor ["a"] with [x: 0] at frame 0 and [x: 100] at frame 10
    under [linear] easing resolves [x] at frame 5 to 50, whatever the frame
    rate; and [applyEase] with [linear] computes
    [from + (to - from) * (cf - fk) / (tk - fk)] between two distinct
    keyframes [fk] and [tk], for every current frame [cf >= fk]. *)
Theorem C2_linear_tween :
  (forall fps : Q, exists q,
     run (let* a := build [("name", VStr "a"); ("easing", VStr "linear")]
                      [(VNum (Fin 0), [("x", VNum (Fin 0))]); (VNum (Fin 10), [("x", VNum (Fin 100))])] in
          resolve a 5 "x") (empty_store fps) (fun _ v => v) = Some (VNum (Fin q))
     /\ (q == 50)%Q) /\
  (forall fk tk b e cf : Q, (fk <= cf)%Q -> ~ (tk == fk)%Q ->
     exists v, applyEase "linear" (Fin fk) (Fin tk) (Fin b) (Fin e) (Fin cf) = Some (Fin v)
       /\ (v == b + (e - b) * (cf - fk) / (tk - fk))%Q).
Proof.
  split.
  - intros fps. eexists. split.
    + vm_compute. reflexivity.
    + reflexivity.
  - intros fk tk b e cf Hle Hne.
    unfold applyEase, num_ge, tween, or_one, linear, nsub, nmul, ndiv, nadd.
    apply Qle_bool_iff in Hle. rewrite Hle. simpl.
    assert (Hd : Qeq_bool (tk - fk) 0 = false).
    { apply not_true_iff_false. intros H. apply Qeq_bool_iff in H. apply Hne.
      apply (Qplus_inj_r _ _ (- fk)). rewrite Qplus_opp_r. exact H. }
    rewrite Hd. rewrite Hd. eexists. split; [reflexivity|].
    field. intros H. apply Hne. apply (Qplus_inj_r _ _ (- fk)). rewrite Qplus_opp_r. exact H.
Qed.

(** An instance of the general C2 formula: frames 0 to 10, 0 to 100, at 5. *)
Lemma C2_witness :
  (0 <= 5)%Q /\ ~ (10 == 0)%Q /\
  exists v, applyEase "linear" (Fin 0) (Fin 10) (Fin 0) (Fin 100) (Fin 5) = Some (Fin v)
    /\ (v == 0 + (100 - 0) * (5 - 0) / (10 - 0))%Q.
Proof.
  assert (H1 : (0 <= 5)%Q) by (unfold Qle; simpl; lia).
  assert (H2 : ~ (10 == 0)%Q) by (unfold Qeq; simpl; lia).
  split; [exact H1|]. split; [exact H2|].
  exact (proj2 C2_linear_tween 0%Q 10%Q 0%Q 100%Q 5%Q H1 H2).
Defined.

(** Claim C6: actor ["a"] with [color: "#000000"] at frame 0 and
    [color: "#ffffff"] at frame 10 under [linear] easing stores both colors
    as [rgb(...)] triples and resolves [color] at frame 5 to
    ["rgb(127,127,127)"], the channels eased to 127.5 and floored, whatever
    the frame rate. *)
Theorem C6_color_blend (fps : Q) :
  run (let* a := build [("name", VStr "a"); ("easing", VStr "linear")]
                   [(VNum (Fin 0), [("color", VStr "#000000")]); (VNum (Fin 10), [("color", VStr "#ffffff")])] in
       let* c := resolve a 5 "color" in ret (a, c))
      (empty_store fps)
      (fun s '(a, c) => (stored s a 0 "color", stored s a 10 "color", c))
  = Some (VStr "rgb(0,0,0)", VStr "rgb(255,255,255)", VStr "rgb(127,127,127)").
Proof. vm_compute. reflexivity. Qed.

End FramePropsFacts.

(** ** Relative modifiers *)
Module ResolveFacts.
Import Val Props Store Scenario.
Open Scope string_scope.

#[local] Arguments Qle_bool : simpl never.
#[local] Arguments Qeq_bool : simpl never.
#[local] Arguments Qplus : simpl never.
#[local] Arguments Qminus : simpl never.
#[local] Arguments Qmult : simpl never.
#[local] Arguments Qdiv : simpl never.
#[local] Arguments inject_Z : simpl never.

Lemma latest_K (K : Z) : 0 < K -> _getLatestKeyframeId [KId 0; KId K; KId (2*K)] K = 0.
Proof.
  intros HK. unfold _getLatestKeyframeId. simpl.
  replace (K =? 0)%Z with false by (symmetry; apply Z.eqb_neq; lia).
  replace (2 * K <? K)%Z with false by (symmetry; apply Z.ltb_ge; lia).
  replace (K <? K)%Z with false by (symmetry; apply Z.ltb_ge; lia).
  replace (0 <? K)%Z with true by (symmetry; apply Z.ltb_lt; lia). reflexivity.
Qed.

Lemma latest_2K (K : Z) : 0 < K -> _getLatestKeyframeId [KId 0; KId K; KId (2*K)] (2*K) = 1.
Proof.
  intros HK. unfold _getLatestKeyframeId. simpl.
  replace (2 * K =? 0)%Z with false by (symmetry; apply Z.eqb_neq; lia).
  replace (2 * K <? 2 * K)%Z with false by (symmetry; apply Z.ltb_ge; lia).
  replace (K <? 2 * K)%Z with true by (symmetry; apply Z.ltb_lt; lia). reflexivity.
Qed.

Section L.
Variable K : Z.
Let L := [KId 0; KId K; KId (2*K)].
Lemma next_0 : _getNextKeyframeId L 0 = 1. Proof. reflexivity. Qed.
Lemma next_1 : _getNextKeyframeId L 1 = 2. Proof. reflexivity. Qed.
Lemma index_0 : index_at L 0 = Some (KId 0). Proof. reflexivity. Qed.
Lemma index_1 : index_at L 1 = Some (KId K). Proof. reflexivity. Qed.
Lemma index_2 : index_at L 2 = Some (KId (2*K)). Proof. reflexivity. Qed.
Lemma to_nat_0 : Z.to_nat 0 = 0%nat. Proof. reflexivity. Qed.
Lemma to_nat_1 : Z.to_nat 1 = 1%nat. Proof. reflexivity. Qed.
Lemma present_empty {V} (k : string) : present (∅ : gmap string V) k = false. Proof. reflexivity. Qed.
End L.

Lemma latest2_K (K : Z) : 0 < K -> _getLatestKeyframeId [KId 0; KId K] K = 0.
Proof.
  intros HK. unfold _getLatestKeyframeId. simpl.
  replace (K =? 0)%Z with false by (symmetry; apply Z.eqb_neq; lia).
  replace (K <? K)%Z with false by (symmetry; apply Z.ltb_ge; lia).
  replace (0 <? K)%Z with true by (symmetry; apply Z.ltb_lt; lia). reflexivity.
Qed.

Section L2.
Variable K : Z.
Let L := [KId 0; KId K].
Lemma next2_0 : _getNextKeyframeId L 0 = 1. Proof. reflexivity. Qed.
Lemma index2_0 : index_at L 0 = Some (KId 0). Proof. reflexivity. Qed.
Lemma index2_1 : index_at L 1 = Some (KId K). Proof. reflexivity. Qed.
End L2.

Lemma bind_Ok {A B} (m : M A) (f : A -> M B) s s' x : m s = Ok s' x -> bind m f s = f x s'.
Proof. intros E. unfold bind. rewrite E. reflexivity. Qed.

Lemma applyEase_lin fk tk b e cf : Qle_bool fk cf = true -> Qeq_bool (tk - fk) 0 = false ->
  applyEase "linear" (Fin fk) (Fin tk) (Fin b) (Fin e) (Fin cf) = Some (Fin ((e - b) * (cf - fk) / (tk - fk) + b)).
Proof. intros H1 H2. unfold applyEase, num_ge, tween, or_one, linear, nsub, nmul, ndiv, nadd. simpl. rewrite H1, H2. simpl. rewrite H2. reflexivity. Qed.

Lemma bind_assoc {A B C} (m : M A) (g : A -> M B) (f : B -> M C) s :
  bind (bind m g) f s = bind m (fun x => bind (g x) f) s.
Proof. unfold bind. destruct (m s); reflexivity. Qed.

Lemma run_Ok {A B} (m : M A) s (f : store -> A -> B) s' a : m s = Ok s' a -> run m s f = Some (f s' a).
Proof. intros E. unfold run. rewrite E. reflexivity. Qed.

Lemma present_insert_eq {V} (k : string) (v : V) (m : gmap string V) : present (<[k:=v]> m) k = true.
Proof. unfold present. rewrite lookup_insert_eq. reflexivity. Qed.

Ltac atom := first [ reflexivity | (cbn; reflexivity) ].

Ltac facts := rewrite ?lookup_singleton_eq, ?lookup_insert_eq, ?next_0, ?next_1, ?index_0, ?index_1, ?index_2, ?next2_0, ?index2_0, ?index2_1, ?to_nat_0, ?to_nat_1, ?present_empty, ?present_insert_eq.

Ltac decide_cond c :=
  lazymatch c with true => fail | false => fail | _ => idtac end;
  let c' := eval vm_compute in c in
  match c' with
  | true => change c with true
  | false => change c with false
  end.

Ltac ev1 :=
  first
  [ progress facts
  | erewrite bind_Ok by atom
  | rewrite bind_assoc
  | match goal with
    | |- (if ?c then _ else _) _ = _ => decide_cond c
    | |- bind (if ?c then _ else _) _ _ = _ => decide_cond c
    end
  | progress unfold proto_id, cache_of, set_cache, apply_dynamic, _calculateUncachedProperty, kf_of
  | progress cbn [frame_props walk apply_dynamics nth_error st3 keyframes originalStates keyframeIds actorstateIndex actors liveCopies layerIndex reachedKeyframes fps lastKeyframe animationDuration currentFrame keyframeCache console ids reached queue cfrom cto set_keyframeCache set_actorstateIndex Z.eqb Pos.eqb negb andb orb JS.last List.rev app opt_kid_num kid_num ease_name get tween String.eqb Ascii.eqb Bool.eqb]
  ].

(** Resolving [x] at frame [K] with keyframes [0] and [K]. *)
Lemma two_keyframes (K : Z) (s : store) :
  0 < K ->
  actorstateIndex s = {["a" := mkIdx [KId 0; KId K] [] []]} ->
  keyframeCache s = ∅ ->
  (keyframes s !! KId 0 ≫= (fun m => m !! "a")) = Some (st3 (VNum (Fin 10)) 0) ->
  (keyframes s !! KId K ≫= (fun m => m !! "a")) = Some (st3 (VStr "+=5") K) ->
  exists q, run (resolve "a" K "x") s (fun _ v => v) = Some (VNum (Fin q)) /\ (q == 15)%Q.
Proof.
  intros HK Hidx Hc H0 H1.
  destruct s; simpl in *; subst.
  destruct (keyframes0 !! KId 0) as [m0|] eqn:E0; [|discriminate]. simpl in H0.
  destruct (keyframes0 !! KId K) as [m1|] eqn:E1; [|discriminate]. simpl in H1.
  assert (F4 : Qle_bool (inject_Z 0) (inject_Z K) = true).
  { apply Qle_bool_iff. rewrite <- Zle_Qle. lia. }
  assert (F5 : Qeq_bool (inject_Z K - inject_Z 0) 0 = false).
  { apply not_true_iff_false. intros E. apply Qeq_bool_iff in E.
    unfold Qeq, Qminus, Qplus, Qopp, inject_Z in E; simpl in E; lia. }
  assert (N1 : ~ (inject_Z K - inject_Z 0 == 0)%Q).
  { intros E. unfold Qeq, Qminus, Qplus, Qopp, inject_Z in E; simpl in E; lia. }
  pose proof (latest2_K K HK) as L1.
  assert (J : js_Number (JStr.strip_mod "+=5") = Fin 5) by reflexivity.
  eexists; split.
  all: try (erewrite run_Ok; [reflexivity|];
      unfold resolve, _getActorState, _calculateCurrentFrameProps, _calculateUncachedProperty, cache_of, set_cache, proto_id, kf_of, apply_dynamic;
      repeat (first [ev1 | progress rewrite ?L1, ?E0, ?E1, ?H0, ?H1, ?J])).
  all: try (cbn [ease_name get tween String.eqb Ascii.eqb Bool.eqb nadd st3];
             rewrite !applyEase_lin by assumption; cbn; reflexivity).
  all: field; intros E; unfold Qeq, Qminus, Qplus, Qopp, inject_Z in E; simpl in E; lia.
Qed.

(** Resolving [x] at frames [K] and [2K] with keyframes [0], [K] and [2K]. *)
Lemma three_keyframes (K : Z) (s : store) :
  0 < K ->
  actorstateIndex s = {["a" := mkIdx [KId 0; KId K; KId (2*K)] [] []]} ->
  keyframeCache s = ∅ ->
  (keyframes s !! KId 0 ≫= (fun m => m !! "a")) = Some (st3 (VNum (Fin 10)) 0) ->
  (keyframes s !! KId K ≫= (fun m => m !! "a")) = Some (st3 (VStr "+=5") K) ->
  (keyframes s !! KId (2*K) ≫= (fun m => m !! "a")) = Some (st3 (VStr "+=5") (2*K)) ->
  (exists q, run (resolve "a" K "x") s (fun _ v => v) = Some (VNum (Fin q)) /\ (q == 15)%Q) /\
  (exists q, run (resolve "a" (2*K) "x") s (fun _ v => v) = Some (VNum (Fin q)) /\ (q == 20)%Q) /\
  (exists q, run (let* _ := resolve "a" K "x" in resolve "a" (2*K) "x") s (fun _ v => v)
               = Some (VNum (Fin q)) /\ (q == 20)%Q).
Proof.
  intros HK Hidx Hc H0 H1 H2.
  destruct s; simpl in *; subst.
  destruct (keyframes0 !! KId 0) as [m0|] eqn:E0; [|discriminate]. simpl in H0.
  destruct (keyframes0 !! KId K) as [m1|] eqn:E1; [|discriminate]. simpl in H1.
  destruct (keyframes0 !! KId (2*K)) as [m2|] eqn:E2; [|discriminate]. simpl in H2.
  assert (F4 : Qle_bool (inject_Z 0) (inject_Z K) = true).
  { apply Qle_bool_iff. rewrite <- Zle_Qle. lia. }
  assert (F5 : Qeq_bool (inject_Z K - inject_Z 0) 0 = false).
  { apply not_true_iff_false. intros E. apply Qeq_bool_iff in E.
    unfold Qeq, Qminus, Qplus, Qopp, inject_Z in E; simpl in E; lia. }
  assert (F6 : Qle_bool (inject_Z K) (inject_Z (2*K)) = true).
  { apply Qle_bool_iff. rewrite <- Zle_Qle. lia. }
  assert (F7 : Qeq_bool (inject_Z (2*K) - inject_Z K) 0 = false).
  { apply not_true_iff_false. intros E. apply Qeq_bool_iff in E.
    unfold Qeq, Qminus, Qplus, Qopp, inject_Z in E; simpl in E; lia. }
  assert (N1 : ~ (inject_Z K - inject_Z 0 == 0)%Q).
  { intros E. unfold Qeq, Qminus, Qplus, Qopp, inject_Z in E; simpl in E; lia. }
  assert (N2 : ~ (inject_Z (2*K) - inject_Z K == 0)%Q).
  { intros E. unfold Qeq, Qminus, Qplus, Qopp, inject_Z in E; simpl in E; lia. }
  pose proof (latest_K K HK) as L1. pose proof (latest_2K K HK) as L2.
  assert (J : js_Number (JStr.strip_mod "+=5") = Fin 5) by reflexivity.
  split; [|split]; eexists; split.
  all: try (erewrite run_Ok; [reflexivity|];
      unfold resolve, _getActorState, _calculateCurrentFrameProps, _calculateUncachedProperty, cache_of, set_cache, proto_id, kf_of, apply_dynamic;
      repeat (first [ev1 | progress rewrite ?L1, ?L2, ?E0, ?E1, ?E2, ?H0, ?H1, ?H2, ?J])).
  all: try (cbn [ease_name get tween String.eqb Ascii.eqb Bool.eqb nadd st3];
             rewrite !applyEase_lin by assumption; cbn; reflexivity).
  all: field; intros E; unfold Qeq, Qminus, Qplus, Qopp, inject_Z in E; simpl in E; lia.
Qed.

(** One step of [walk]. *)
Lemma walk_eq L a prop j acc :
  walk L a prop j acc =
  (let* st := kf_of (nth_error L j) a in
   let* st := lift st in
   let v := get st prop in
   if negb (isDynamic v) then ret (v :: acc, true)
   else match j with O => ret (v :: acc, false) | S j' => walk L a prop j' (v :: acc) end).
Proof. destruct j; reflexivity. Qed.

Lemma kf_of_stored s L a prop j v :
  stored_at s L a prop j v ->
  exists st, kf_of (nth_error L j) a s = Ok s (Some st) /\ get st prop = v.
Proof.
  intros (k & st & Hk & Hst & Hv). exists st. split; [|exact Hv].
  unfold kf_of, bind, gets. rewrite Hk.
  destruct (keyframes s !! k) as [m|]; [|discriminate]. simpl in Hst.
  unfold lift, ret. rewrite Hst. reflexivity.
Qed.

Lemma walk_at s L a prop j acc v :
  stored_at s L a prop j v ->
  walk L a prop j acc s =
  (if negb (isDynamic v) then ret (v :: acc, true)
   else match j with O => ret (v :: acc, false) | S j' => walk L a prop j' (v :: acc) end) s.
Proof.
  intros H. destruct (kf_of_stored s L a prop j v H) as [st [E Hv]].
  rewrite walk_eq. unfold bind at 1. rewrite E. unfold bind, lift, ret. rewrite Hv. reflexivity.
Qed.

(** The walk from index [i + List.length dyns] down to a static value at [i]. *)
Lemma walk_static s L a prop i v0 : forall dyns acc,
  (forall t, (t <= List.length dyns)%nat -> stored_at s L a prop (i + t) (nth t (v0 :: dyns) VUndef)) ->
  isDynamic v0 = false -> Forall (fun v => isDynamic v = true) dyns ->
  walk L a prop (i + List.length dyns) acc s = Ok s ((v0 :: dyns) ++ acc, true)%list.
Proof.
  intros dyns. induction dyns as [|d ds IH] using rev_ind; intros acc Hs H0 Hd.
  - simpl. rewrite Nat.add_0_r. rewrite (walk_at s L a prop i acc v0).
    + rewrite H0. reflexivity.
    + specialize (Hs 0%nat ltac:(simpl; lia)). rewrite Nat.add_0_r in Hs. exact Hs.
  - apply Forall_app in Hd as [Hds Hd']. inversion Hd' as [|? ? Hdd _]; subst.
    rewrite List.length_app. simpl length.
    replace (i + (List.length ds + 1))%nat with (S (i + List.length ds)) by lia.
    rewrite (walk_at s L a prop _ acc d).
    + rewrite Hdd. cbn [negb].
      rewrite (IH (d :: acc)).
      * simpl. rewrite <- app_assoc. reflexivity.
      * intros t Ht. specialize (Hs t ltac:(rewrite length_app; simpl; lia)).
        destruct t as [|t]; [exact Hs|]. simpl in Hs |- *. rewrite app_nth1 in Hs by lia. exact Hs.
      * exact H0.
      * exact Hds.
    + specialize (Hs (S (List.length ds)) ltac:(rewrite length_app; simpl; lia)).
      replace (i + S (List.length ds))%nat with (S (i + List.length ds)) in Hs by lia.
      simpl nth in Hs. rewrite app_nth2 in Hs by lia. rewrite Nat.sub_diag in Hs. exact Hs.
Qed.

(** The walk from index [List.length vs] down to index 0 over dynamic values only. *)
Lemma walk_fallback s L a prop v : forall vs acc,
  (forall t, (t <= List.length vs)%nat -> stored_at s L a prop t (nth t (v :: vs) VUndef)) ->
  Forall (fun w => isDynamic w = true) (v :: vs) ->
  walk L a prop (List.length vs) acc s = Ok s ((v :: vs) ++ acc, false)%list.
Proof.
  intros vs. induction vs as [|d ds IH] using rev_ind; intros acc Hs Hd.
  - change (List.length (@nil pval)) with 0%nat. inversion Hd as [|? ? Hv _]; subst.
    rewrite (walk_at s L a prop 0 acc v (Hs 0%nat ltac:(simpl; lia))). rewrite Hv. reflexivity.
  - change (v :: (ds ++ [d])%list) with ((v :: ds) ++ [d])%list in Hd.
    apply Forall_app in Hd as [Hds Hd']. inversion Hd' as [|? ? Hdd _]; subst.
    rewrite List.length_app. simpl length. rewrite Nat.add_1_r.
    rewrite (walk_at s L a prop _ acc d).
    + rewrite Hdd. cbn [negb].
      rewrite (IH (d :: acc)).
      * simpl. rewrite <- app_assoc. reflexivity.
      * intros t Ht. specialize (Hs t ltac:(rewrite length_app; simpl; lia)).
        destruct t as [|t]; [exact Hs|]. simpl in Hs |- *. rewrite app_nth1 in Hs by lia. exact Hs.
      * exact Hds.
    + specialize (Hs (S (List.length ds)) ltac:(rewrite length_app; simpl; lia)).
      simpl nth in Hs. rewrite app_nth2 in Hs by lia. rewrite Nat.sub_diag in Hs. exact Hs.
Qed.

(** The result of [_calculateUncachedProperty] when the walk meets a static value. *)
Lemma calc_static call a prop s idx i v0 dyns :
  actorstateIndex s !! a = Some idx ->
  0 <= _getLatestKeyframeId (ids idx) (currentFrame s) ->
  (i + List.length dyns)%nat = Z.to_nat (_getLatestKeyframeId (ids idx) (currentFrame s)) ->
  (forall t, (t <= List.length dyns)%nat -> stored_at s (ids idx) a prop (i + t) (nth t (v0 :: dyns) VUndef)) ->
  isDynamic v0 = false -> Forall (fun v => isDynamic v = true) dyns ->
  _calculateUncachedProperty call a prop s =
    apply_dynamics call (kf_of (index_at (ids idx) (_getLatestKeyframeId (ids idx) (currentFrame s))) a) v0 dyns s.
Proof.
  intros Hi Hl Hj Hs H0 Hd.
  unfold _calculateUncachedProperty, bind at 1, gets. rewrite Hi.
  unfold bind at 1, lift, ret. unfold bind at 1, gets.
  replace ((_getLatestKeyframeId (ids idx) (currentFrame s) <? 0)%Z) with false by (symmetry; apply Z.ltb_ge; exact Hl).
  unfold bind at 1. rewrite <- Hj, (walk_static s (ids idx) a prop i v0 dyns [] Hs H0 Hd).
  rewrite app_nil_r. reflexivity.
Qed.

(** The result when every value down to index 0 is dynamic. *)
Lemma calc_fallback call a prop s idx p v vs :
  actorstateIndex s !! a = Some idx -> actors s !! a = Some p ->
  0 <= _getLatestKeyframeId (ids idx) (currentFrame s) ->
  List.length vs = Z.to_nat (_getLatestKeyframeId (ids idx) (currentFrame s)) ->
  (forall t, (t <= List.length vs)%nat -> stored_at s (ids idx) a prop t (nth t (v :: vs) VUndef)) ->
  Forall (fun w => isDynamic w = true) (v :: vs) ->
  _calculateUncachedProperty call a prop s =
    apply_dynamics call (kf_of (index_at (ids idx) (_getLatestKeyframeId (ids idx) (currentFrame s))) a)
      (get p prop) (v :: vs) s.
Proof.
  intros Hi Hp Hl Hj Hs Hd.
  unfold _calculateUncachedProperty, bind at 1, gets. rewrite Hi.
  unfold bind at 1, lift, ret. unfold bind at 1, gets.
  replace ((_getLatestKeyframeId (ids idx) (currentFrame s) <? 0)%Z) with false by (symmetry; apply Z.ltb_ge; exact Hl).
  unfold bind at 1. rewrite <- Hj, (walk_fallback s (ids idx) a prop v vs [] Hs Hd).
  rewrite app_nil_r. unfold bind, gets. rewrite Hp. reflexivity.
Qed.

(** The result when there is no latest keyframe. *)
Lemma calc_none call a prop s idx p :
  actorstateIndex s !! a = Some idx -> actors s !! a = Some p ->
  _getLatestKeyframeId (ids idx) (currentFrame s) < 0 ->
  _calculateUncachedProperty call a prop s = Ok s (get p prop).
Proof.
  intros Hi Hp Hl.
  unfold _calculateUncachedProperty, bind at 1, gets. rewrite Hi.
  unfold bind at 1, lift, ret. unfold bind at 1, gets.
  replace ((_getLatestKeyframeId (ids idx) (currentFrame s) <? 0)%Z) with true by (symmetry; apply Z.ltb_lt; exact Hl).
  unfold bind, gets. rewrite Hp. reflexivity.
Qed.

(** Claim C3: take actor ["a"] with [x = 10] at keyframe 0 and the
    modifier ["+=5"] at keyframe [K] (the keyframe ids sorted in its
    index, as [actorObj.keyframe] leaves them, and nothing cached):
    resolving [x] at frame [K] gives 15.  With a further ["+=5"] at [2K],
    resolving at [2K] gives 20 (also after resolving at [K]).  In general,
    [_calculateUncachedProperty] walks the actor's keyframes backward from
    [latestKeyframeId]: if the values met are dynamic ones [dyns] above a
    static [v0], the result applies [dyns] in order to [v0]; if all the
    values down to keyframe index 0 are dynamic, it applies them all to the
    initial parameter [params[prop]]; and with no latest keyframe
    ([latestKeyframeId = -1]) it is [params[prop]] itself. *)
Theorem C3_relative_modifiers :
  (forall (K : Z) (s : store),
     0 < K ->
     actorstateIndex s = {["a" := mkIdx [KId 0; KId K] [] []]} ->
     keyframeCache s = ∅ ->
     (keyframes s !! KId 0 ≫= (fun m => m !! "a")) = Some (st3 (VNum (Fin 10)) 0) ->
     (keyframes s !! KId K ≫= (fun m => m !! "a")) = Some (st3 (VStr "+=5") K) ->
     exists q, run (resolve "a" K "x") s (fun _ v => v) = Some (VNum (Fin q)) /\ (q == 15)%Q) /\
  (forall (K : Z) (s : store),
     0 < K ->
     actorstateIndex s = {["a" := mkIdx [KId 0; KId K; KId (2*K)] [] []]} ->
     keyframeCache s = ∅ ->
     (keyframes s !! KId 0 ≫= (fun m => m !! "a")) = Some (st3 (VNum (Fin 10)) 0) ->
     (keyframes s !! KId K ≫= (fun m => m !! "a")) = Some (st3 (VStr "+=5") K) ->
     (keyframes s !! KId (2*K) ≫= (fun m => m !! "a")) = Some (st3 (VStr "+=5") (2*K)) ->
     (exists q, run (resolve "a" K "x") s (fun _ v => v) = Some (VNum (Fin q)) /\ (q == 15)%Q) /\
     (exists q, run (resolve "a" (2*K) "x") s (fun _ v => v) = Some (VNum (Fin q)) /\ (q == 20)%Q) /\
     (exists q, run (let* _ := resolve "a" K "x" in resolve "a" (2*K) "x") s (fun _ v => v)
                  = Some (VNum (Fin q)) /\ (q == 20)%Q)) /\
  (forall call a prop s idx i v0 dyns,
     actorstateIndex s !! a = Some idx ->
     0 <= _getLatestKeyframeId (ids idx) (currentFrame s) ->
     (i + List.length dyns)%nat = Z.to_nat (_getLatestKeyframeId (ids idx) (currentFrame s)) ->
     (forall t, (t <= List.length dyns)%nat ->
        stored_at s (ids idx) a prop (i + t) (nth t (v0 :: dyns) VUndef)) ->
     isDynamic v0 = false -> Forall (fun v => isDynamic v = true) dyns ->
     _calculateUncachedProperty call a prop s =
       apply_dynamics call (kf_of (index_at (ids idx) (_getLatestKeyframeId (ids idx) (currentFrame s))) a)
         v0 dyns s) /\
  (forall call a prop s idx p v vs,
     actorstateIndex s !! a = Some idx -> actors s !! a = Some p ->
     0 <= _getLatestKeyframeId (ids idx) (currentFrame s) ->
     List.length vs = Z.to_nat (_getLatestKeyframeId (ids idx) (currentFrame s)) ->
     (forall t, (t <= List.length vs)%nat -> stored_at s (ids idx) a prop t (nth t (v :: vs) VUndef)) ->
     Forall (fun w => isDynamic w = true) (v :: vs) ->
     _calculateUncachedProperty call a prop s =
       apply_dynamics call (kf_of (index_at (ids idx) (_getLatestKeyframeId (ids idx) (currentFrame s))) a)
         (get p prop) (v :: vs) s) /\
  (forall call a prop s idx p,
     actorstateIndex s !! a = Some idx -> actors s !! a = Some p ->
     _getLatestKeyframeId (ids idx) (currentFrame s) < 0 ->
     _calculateUncachedProperty call a prop s = Ok s (get p prop)).
Proof.
  split; [exact two_keyframes|]. split; [exact three_keyframes|].
  split; [exact calc_static|]. split; [exact calc_fallback|exact calc_none].
Qed.

(** An instance of C3: the stores [actorObj.keyframe] builds for [K = 7]
    (the second one resolved at frame 14 for the walk), and an actor with
    [x: 3] and the modifiers ["+=5"] and ["+=1"] at keyframes 0 and 10,
    resolved at frames 5 and 50. *)
Lemma C3_witness :
  (exists q, run (resolve "a" 7 "x") (relative_store2 7) (fun _ v => v) = Some (VNum (Fin q)) /\ (q == 15)%Q) /\
  ((exists q, run (resolve "a" 7 "x") (relative_store 7) (fun _ v => v) = Some (VNum (Fin q)) /\ (q == 15)%Q) /\
   (exists q, run (resolve "a" (2*7) "x") (relative_store 7) (fun _ v => v) = Some (VNum (Fin q)) /\ (q == 20)%Q) /\
   (exists q, run (let* _ := resolve "a" 7 "x" in resolve "a" (2*7) "x") (relative_store 7) (fun _ v => v)
                = Some (VNum (Fin q)) /\ (q == 20)%Q)) /\
  _calculateUncachedProperty no_call "a" "x" (at_frame_store 14 (relative_store 7)) =
    apply_dynamics no_call
      (kf_of (index_at [KId 0; KId 7; KId 14] (_getLatestKeyframeId [KId 0; KId 7; KId 14] 14)) "a")
      (VNum (Fin 10)) [VStr "+=5"] (at_frame_store 14 (relative_store 7)) /\
  _calculateUncachedProperty no_call "a" "x" (at_frame_store 5 fallback_store) =
    apply_dynamics no_call
      (kf_of (index_at [KId 0; KId 10] (_getLatestKeyframeId [KId 0; KId 10] 5)) "a")
      (VNum (Fin 3)) [VStr "+=5"] (at_frame_store 5 fallback_store) /\
  _calculateUncachedProperty no_call "a" "x" (at_frame_store 50 fallback_store) =
    Ok (at_frame_store 50 fallback_store) (VNum (Fin 3)).
Proof.
  destruct C3_relative_modifiers as (P2 & P3 & Ps & Pf & Pn).
  split.
  { apply P2; [lia|vm_compute; reflexivity|vm_compute; reflexivity|vm_compute; reflexivity|vm_compute; reflexivity]. }
  split.
  { apply P3; [lia|vm_compute; reflexivity|vm_compute; reflexivity|vm_compute; reflexivity
              |vm_compute; reflexivity|vm_compute; reflexivity]. }
  split.
  { apply (Ps no_call "a" "x" (at_frame_store 14 (relative_store 7)) (mkIdx [KId 0; KId 7; KId 14] [] []) 0%nat
             (VNum (Fin 10)) [VStr "+=5"]).
    - vm_compute. reflexivity.
    - vm_compute. discriminate.
    - vm_compute. reflexivity.
    - intros t Ht. destruct t as [|[|t]]; [| |simpl in Ht; lia].
      + exists (KId 0), (st3 (VNum (Fin 10)) 0). split; [reflexivity|]. split; [vm_compute; reflexivity|reflexivity].
      + exists (KId 7), (st3 (VStr "+=5") 7). split; [reflexivity|]. split; [vm_compute; reflexivity|reflexivity].
    - reflexivity.
    - repeat constructor. }
  split.
  { apply (Pf no_call "a" "x" (at_frame_store 5 fallback_store) (mkIdx [KId 0; KId 10] [] [])
             [("x", VNum (Fin 3)); ("data", VObj []); ("layer", VNum (Fin 0))] (VStr "+=5") []).
    - vm_compute. reflexivity.
    - vm_compute. reflexivity.
    - vm_compute. discriminate.
    - vm_compute. reflexivity.
    - intros t Ht. destruct t as [|t]; [|simpl in Ht; lia].
      exists (KId 0), [("x", VStr "+=5"); ("layer", VNum (Fin 0)); ("_keyframeID", VNum (Fin 0)); ("prototype", VRef "a")].
      split; [reflexivity|]. split; [vm_compute; reflexivity|reflexivity].
    - repeat constructor. }
  { apply (Pn no_call "a" "x" (at_frame_store 50 fallback_store) (mkIdx [KId 0; KId 10] [] [])
             [("x", VNum (Fin 3)); ("data", VObj []); ("layer", VNum (Fin 0))]).
    - vm_compute. reflexivity.
    - vm_compute. reflexivity.
    - vm_compute. reflexivity. }
Defined.

End ResolveFacts.

(** ** Keyframe 0 across keyframe creation and removal *)
Module MutationFacts.
Import Val Props Store Mutations.

Section Preservation.
Variable Inv : store -> Prop.
Hypothesis I_dom : forall s s',
  (forall k, is_Some (keyframes s' !! k) <-> is_Some (keyframes s !! k)) -> Inv s -> Inv s'.
Hypothesis I_ins : forall s k v, Inv s ->
  (forall z, k = KId z -> 0 < z -> is_Some (keyframes s !! KId 0)) ->
  Inv (set_keyframes s (<[k := v]> (keyframes s))).
Hypothesis I_del : forall s k, k <> KId 0 -> Inv s -> Inv (set_keyframes s (delete k (keyframes s))).

Lemma I_same s s' : keyframes s' = keyframes s -> Inv s -> Inv s'.
Proof. intros E. apply I_dom. intros k. rewrite E. reflexivity. Qed.

Lemma I_ins_present s k v : Inv s -> is_Some (keyframes s !! k) ->
  Inv (set_keyframes s (<[k := v]> (keyframes s))).
Proof.
  intros HI Hk. apply (I_dom s); [|exact HI]. intros j. simpl.
  rewrite lookup_insert_is_Some'. split; [intros [<-|H]; auto|auto].
Qed.

Lemma pres_ret {A} (a : A) : pres Inv (ret a).
Proof. intros s H. exact H. Qed.

Lemma pres_bind {A B} (m : M A) (f : A -> M B) :
  pres Inv m -> (forall a, pres Inv (f a)) -> pres Inv (bind m f).
Proof.
  intros Hm Hf s H. unfold bind. specialize (Hm s H).
  destruct (m s) as [s' a|s'|]; auto. apply Hf, Hm.
Qed.

Lemma pres_gets {A} (f : store -> A) : pres Inv (gets f).
Proof. intros s H. exact H. Qed.

Lemma pres_throw {A} : pres Inv (@throw A).
Proof. intros s H. exact H. Qed.

Lemma pres_unmodelled {A} : pres Inv (@unmodelled A).
Proof. intros s H. exact I. Qed.

Lemma pres_lift {A} (o : option A) : pres Inv (lift o).
Proof. destruct o; [apply pres_ret|apply pres_throw]. Qed.

Lemma pres_modify (f : store -> store) : (forall s, Inv s -> Inv (f s)) -> pres Inv (modify f).
Proof. intros Hf s H. apply Hf, H. Qed.

Lemma pres_modify_same (f : store -> store) : (forall s, keyframes (f s) = keyframes s) -> pres Inv (modify f).
Proof. intros Hf. apply pres_modify. intros s. apply I_same, Hf. Qed.

Lemma pres_iter {X} (f : X -> M unit) (l : list X) : (forall x, pres Inv (f x)) -> pres Inv (iter f l).
Proof.
  intros Hf. induction l as [|x t IH]; simpl; [apply pres_ret|].
  apply pres_bind; [apply Hf|intros _; exact IH].
Qed.

Lemma pres_getRealKeyframe id : pres Inv (_getRealKeyframe id).
Proof.
  intros s H. unfold _getRealKeyframe.
  destruct (RealKeyframe._getRealKeyframe (fps s) id); auto.
Qed.

Lemma pres_updateAnimationDuration : pres Inv _updateAnimationDuration.
Proof. apply pres_modify_same. reflexivity. Qed.

Lemma pres_updateKeyframeIdsList sort k : pres Inv (_updateKeyframeIdsList sort k).
Proof. apply pres_modify_same. intros s. destruct existsb; reflexivity. Qed.

Lemma pres_updateActorStateIndex sort a k : pres Inv (_updateActorStateIndex sort a k).
Proof.
  unfold _updateActorStateIndex. apply pres_bind; [apply pres_gets|intros o].
  apply pres_bind; [apply pres_lift|intros idx].
  destruct existsb; [apply pres_ret|apply pres_modify_same; reflexivity].
Qed.

Lemma pres_normalize_from a prev l : pres Inv (normalize_from a prev l).
Proof.
  revert prev. induction l as [|k t IH]; intros prev; simpl; [apply pres_ret|].
  intros s H.
  destruct (match prev with Some p => _ | None => _ end) as [sc|]; [|exact H].
  destruct (originalStates s !! k) as [os|]; [|exact H].
  destruct (keyframes s !! k) as [kf|] eqn:Ek; [|exact H].
  destruct (norm_props _ _ _ _) as [obj threw].
  assert (H' : Inv (set_keyframes s (<[k := <[a := obj]> kf]> (keyframes s)))).
  { apply I_ins_present; [exact H|rewrite Ek; eauto]. }
  destruct threw; [exact H'|apply IH, H'].
Qed.

Lemma pres_normalizeActorAcrossKeyframes a : pres Inv (_normalizeActorAcrossKeyframes a).
Proof.
  unfold _normalizeActorAcrossKeyframes. apply pres_bind; [apply pres_gets|intros o].
  apply pres_bind; [apply pres_lift|intros idx]. apply pres_normalize_from.
Qed.

Lemma pres_update_live_copy a lc c : pres Inv (update_live_copy a lc c).
Proof.
  intros s H. unfold update_live_copy.
  destruct (keyframes s !! lc) as [kl|] eqn:El; [|exact H].
  destruct (keyframes s !! copyOf c) as [kc|]; [|exact H].
  destruct (kc !! a); [|exact I].
  apply I_ins_present; [exact H|rewrite El; eauto].
Qed.

Lemma pres_updateLiveCopies : pres Inv _updateLiveCopies.
Proof.
  unfold _updateLiveCopies. apply pres_bind; [apply pres_gets|intros lcs].
  apply pres_iter. intros [a m]. apply pres_iter. intros [lc c]. apply pres_update_live_copy.
Qed.

Lemma pres_update_layers_from i l : pres Inv (update_layers_from i l).
Proof.
  revert i. induction l as [|a t IH]; intros i; simpl; [apply pres_ret|].
  apply pres_bind; [apply pres_gets|intros o].
  apply pres_bind; [apply pres_lift|intros p].
  apply pres_bind; [apply pres_modify_same; reflexivity|intros _]. apply IH.
Qed.

Lemma pres_updateKeyframes sort a k : pres Inv (_updateKeyframes sort a k).
Proof.
  unfold _updateKeyframes.
  apply pres_bind; [apply pres_updateKeyframeIdsList|intros _].
  apply pres_bind; [apply pres_updateActorStateIndex|intros _].
  apply pres_bind; [apply pres_normalizeActorAcrossKeyframes|intros _].
  apply pres_bind; [apply pres_updateLiveCopies|intros _].
  unfold _updateLayers. apply pres_bind; [apply pres_gets|intros li]. apply pres_update_layers_from.
Qed.

Lemma getRealKeyframe_store id s : match _getRealKeyframe id s with Ok s' _ | Exn s' => s' = s | Gap => True end.
Proof. unfold _getRealKeyframe. destruct RealKeyframe._getRealKeyframe; reflexivity. Qed.

Lemma bind_modify_app {B} (f : store -> store) (g : unit -> M B) s : bind (modify f) g s = g tt (f s).
Proof. reflexivity. Qed.

Ltac modify_step name :=
  rewrite bind_modify_app; cbv beta;
  match goal with |- match bind _ _ ?x with _ => _ end => set (name := x) end.

Lemma pres_keyframe sort a id st : pres Inv (keyframe sort a id st).
Proof.
  intros s H. unfold keyframe.
  pose proof (getRealKeyframe_store id s) as Hs.
  destruct (_getRealKeyframe id s) as [s' k|s'|]; subst; [|apply (I_same s); [reflexivity|exact H]|exact I].
  match goal with |- match ?m s with _ => _ end => enough (Hp : pres Inv m) by exact (Hp s H) end.
  apply pres_bind; [destruct k as [z|]; [destruct (z <? 0); [apply pres_throw|apply pres_ret]|apply pres_ret]|intros _].
  intros s1 H1. modify_step s2.
  assert (H2 : Inv s2 /\ forall z, k = KId z -> 0 < z -> is_Some (keyframes s2 !! KId 0)).
  { subst s2. destruct k as [z|]; simpl.
    - destruct (0 <? z) eqn:Ez; simpl.
      + unfold present. destruct (keyframes s1 !! KId 0) eqn:E0; simpl.
        * split; [exact H1|]. intros z' [= <-] _. rewrite E0. eauto.
        * split.
          -- apply (I_same (set_keyframes s1 (<[KId 0 := ∅]> (keyframes s1)))); [reflexivity|].
             apply I_ins; [exact H1|]. intros z' [= <-]. lia.
          -- intros. simpl. rewrite lookup_insert. eauto.
      + split; [exact H1|]. intros z' [= <-] Hz. apply Z.ltb_nlt in Ez. lia.
    - split; [exact H1|]. intros z' [=]. }
  clearbody s2. destruct H2 as [H2 H2k].
  modify_step s3.
  assert (H3 : Inv s3 /\ forall z, k = KId z -> 0 < z -> is_Some (keyframes s3 !! KId 0)).
  { subst s3. destruct (present (keyframes s2) k).
    - split; assumption.
    - split; [apply I_ins; assumption|].
      intros z Ek Hz. simpl. apply lookup_insert_is_Some'. right. eapply H2k; eauto. }
  clearbody s3. destruct H3 as [H3 H3k].
  modify_step s4.
  assert (H4 : Inv s4 /\ keyframes s4 = keyframes s3).
  { subst s4. destruct present; split; auto; apply (I_same s3); auto. }
  clearbody s4. destruct H4 as [H4 E4].
  modify_step s5.
  assert (H5 : Inv s5).
  { subst s5. apply I_ins; [exact H4|]. rewrite E4. exact H3k. }
  clearbody s5. modify_step s6.
  refine (pres_bind _ _ (pres_updateKeyframes _ _ _) (fun _ => pres_updateAnimationDuration) _ _).
  subst s6. apply (I_same s5); [reflexivity|exact H5].
Qed.

Lemma kid_eqb_0_false k : kid_eqb k (KId 0) = false -> k <> KId 0.
Proof. intros E ->. discriminate E. Qed.

Lemma pres_remove fuel a id : pres Inv (remove fuel a id).
Proof.
  revert a id. induction fuel as [|fuel IH]; intros a id; [apply pres_unmodelled|].
  simpl. apply pres_bind; [apply pres_getRealKeyframe|intros k].
  apply pres_bind; [apply pres_gets|intros here].
  destruct here; [|apply pres_modify_same; reflexivity].
  apply pres_bind.
  { apply pres_modify. intros s H. apply (I_dom s); [|exact H].
    intros j. simpl. apply lookup_alter_is_Some. }
  intros _. apply pres_bind; [apply pres_gets|intros os].
  apply pres_bind; [apply pres_lift|intros os'].
  apply pres_bind; [apply pres_modify_same; reflexivity|intros _].
  apply pres_bind; [apply pres_gets|intros has].
  apply pres_bind.
  { destruct (negb has && negb (kid_eqb k (KId 0))) eqn:E; [|apply pres_ret].
    apply andb_prop in E as [_ E]. apply negb_true_iff, kid_eqb_0_false in E.
    apply pres_modify. intros s H.
    apply (I_same (set_keyframes s (delete k (keyframes s)))); [reflexivity|].
    apply I_del; assumption. }
  intros _. apply pres_bind; [apply pres_gets|intros idx].
  apply pres_bind;
    [destruct idx as [idx|]; [destruct find_index; [apply pres_modify_same; reflexivity|apply pres_ret]
                             |destruct inherited; [apply pres_ret|apply pres_throw]]|intros _].
  apply pres_bind; [apply pres_modify_same; intros s; destruct (liveCopies s !! a); [destruct present|]; reflexivity|intros _].
  apply pres_bind; [apply pres_gets|intros snapshot].
  apply pres_bind.
  { generalize false as r. induction snapshot as [|lc t IHt]; intros r; [apply pres_ret|].
    apply pres_bind; [apply pres_gets|intros cur].
    destruct cur as [m|]; [|apply pres_unmodelled].
    destruct (m !! lc) as [c|]; [|apply IHt].
    destruct kid_eqb; [|apply IHt].
    apply pres_bind; [apply IH|intros _; apply IHt]. }
  intros lcr. apply pres_bind; [destruct lcr; [apply pres_ret|apply pres_modify_same; reflexivity]|intros _].
  apply pres_updateAnimationDuration.
Qed.

Lemma pres_run_op sort fuel o : pres Inv (run_op sort fuel o).
Proof. destruct o; [apply pres_keyframe|apply pres_remove]. Qed.

Lemma run_ops_pres sort fuel ops s s' : Inv s -> run_ops sort fuel ops s = Some s' -> Inv s'.
Proof.
  revert s. induction ops as [|o t IHo]; intros s H E; simpl in E.
  - injection E as <-. exact H.
  - pose proof (pres_run_op sort fuel o s H) as Ho.
    destruct (run_op sort fuel o s) as [s1 u|s1|]; [eapply IHo; eauto|eapply IHo; eauto|discriminate].
Qed.

End Preservation.

Lemma kf0_inv_dom s s' :
  (forall k, is_Some (keyframes s' !! k) <-> is_Some (keyframes s !! k)) -> kf0_inv s -> kf0_inv s'.
Proof. intros E H z Hz Hk. apply E. apply (H z Hz). apply E, Hk. Qed.

Lemma kf0_inv_ins s k v : kf0_inv s ->
  (forall z, k = KId z -> 0 < z -> is_Some (keyframes s !! KId 0)) ->
  kf0_inv (set_keyframes s (<[k := v]> (keyframes s))).
Proof.
  intros H Hk z Hz Hs. simpl in *. apply lookup_insert_is_Some' in Hs as [Ek|Hs].
  - apply lookup_insert_is_Some'. right. apply (Hk z Ek Hz).
  - apply lookup_insert_is_Some'. right. apply (H z Hz Hs).
Qed.

Lemma kf0_inv_del s k : k <> KId 0 -> kf0_inv s -> kf0_inv (set_keyframes s (delete k (keyframes s))).
Proof.
  intros Hk H z Hz Hs. simpl in *. apply lookup_delete_is_Some in Hs as [_ Hs].
  apply lookup_delete_is_Some. split; [exact Hk|]. apply (H z Hz Hs).
Qed.

Lemma has_kf0_dom s s' :
  (forall k, is_Some (keyframes s' !! k) <-> is_Some (keyframes s !! k)) -> has_kf0 s -> has_kf0 s'.
Proof. intros E H. apply E, H. Qed.

Lemma has_kf0_ins s k v : has_kf0 s ->
  (forall z, k = KId z -> 0 < z -> is_Some (keyframes s !! KId 0)) ->
  has_kf0 (set_keyframes s (<[k := v]> (keyframes s))).
Proof. intros H _. unfold has_kf0. simpl. apply lookup_insert_is_Some'. right. exact H. Qed.

Lemma has_kf0_del s k : k <> KId 0 -> has_kf0 s -> has_kf0 (set_keyframes s (delete k (keyframes s))).
Proof. intros Hk H. unfold has_kf0. simpl. apply lookup_delete_is_Some. split; [exact Hk|exact H]. Qed.

(** Claim C5: every sequence of [actorObj.keyframe] and [actorObj.remove]
    calls (a call that throws included) from an engine where keyframe 0
    exists whenever a keyframe with a positive id does leads to an engine
    where this still holds; and a keyframe 0 that exists is never removed. *)
Theorem C5_keyframe_zero_invariant (sort : list kid -> list kid) (fuel : nat) (ops : list op) (s s' : store) :
  kf0_inv s -> run_ops sort fuel ops s = Some s' ->
  kf0_inv s' /\ (has_kf0 s -> has_kf0 s').
Proof.
  intros H E. split.
  - exact (run_ops_pres kf0_inv kf0_inv_dom kf0_inv_ins kf0_inv_del sort fuel ops s s' H E).
  - intros H0. exact (run_ops_pres has_kf0 has_kf0_dom has_kf0_ins has_kf0_del sort fuel ops s s' H0 E).
Qed.

(** An instance of C5: one actor, a keyframe at 10 created and removed. *)
Lemma C5_witness :
  exists s', run_ops Scenario.sort_ids Scenario.fuel Scenario.c5_ops Scenario.one_actor = Some s' /\
    kf0_inv s' /\ (has_kf0 Scenario.one_actor -> has_kf0 s').
Proof.
  assert (H0 : kf0_inv Scenario.one_actor).
  { intros z _ Hk. exfalso.
    assert (E : keyframes Scenario.one_actor = ∅) by (vm_compute; reflexivity).
    rewrite E, lookup_empty in Hk. destruct Hk as [x Hx]. discriminate Hx. }
  assert (E : run_ops Scenario.sort_ids Scenario.fuel Scenario.c5_ops Scenario.one_actor = Some Scenario.c5_final)
    by (vm_compute; reflexivity).
  exists Scenario.c5_final. split; [exact E|].
  exact (C5_keyframe_zero_invariant Scenario.sort_ids Scenario.fuel Scenario.c5_ops Scenario.one_actor
           Scenario.c5_final H0 E).
Defined.

End MutationFacts.

(** ** [framerate] *)
Module RescaleFacts.
Import Val Store Scenario.
Open Scope string_scope.

(** Claim C7 as stated fails: keyframes created with the frame numbers
    0, 10 and 20 at 20 frames per second keep these ids after
    [framerate(40)], since [framerate] re-resolves each keyframe's original
    identifier (here a plain frame number) at the new rate; the duration
    [20 * 1000 / fps] then halves from 1000 to 500 ms. *)
Lemma C7_frame_ids_counterexample :
  exists d0 d1,
    framerate_scenario [VNum (Fin 0); VNum (Fin 10); VNum (Fin 20)]
    = Some ([KId 0; KId 10; KId 20], Fin d0, 40%Q, [KId 0; KId 10; KId 20], Fin d1) /\
    (d0 == 1000)%Q /\ (d1 == 500)%Q /\ ~ (d0 == d1)%Q.
Proof.
  eexists. eexists. split; [vm_compute; reflexivity|].
  split; [reflexivity|]. split; [reflexivity|]. unfold Qeq; simpl; lia.
Qed.

(** Claim C7 (amended): keyframes created with the time identifiers
    ["0s"], ["0.5s"] and ["1s"] sit at 0, 10 and 20 at 20 frames per
    second and at 0, 20 and 40 after [framerate(40)], which returns 40;
    the duration stays 1000 ms. *)
Theorem C7_time_ids_rescaled :
  exists d0 d1,
    framerate_scenario [VStr "0s"; VStr "0.5s"; VStr "1s"]
    = Some ([KId 0; KId 10; KId 20], Fin d0, 40%Q, [KId 0; KId 20; KId 40], Fin d1) /\
    (d0 == 1000)%Q /\ (d1 == 1000)%Q.
Proof.
  eexists. eexists. split; [vm_compute; reflexivity|].
  split; reflexivity.
Qed.

End RescaleFacts.

(** ** [actorObj.remove] of a missing state *)
Module RemoveFacts.
Import Val Props Store.
Open Scope string_scope.




End RemoveFacts.

Module EventFacts.
Import Val Events.


Lemma unbind_loop_app h f p l :
  (length l <= f)%nat ->
  unbind_loop h f (length p) (p ++ l) = p ++ skip_after h l.
Proof.
  revert p l. induction f as [|f IH]; intros p l Hf.
  - destruct l; [|simpl in Hf; lia]. simpl. rewrite app_nil_r. reflexivity.
  - destruct l as [|x t].
    + simpl. rewrite app_nil_r.
      replace (length p <? length p)%nat with false by (symmetry; apply Nat.ltb_ge; lia).
      reflexivity.
    + simpl in Hf. simpl. rewrite length_app.
      replace (length p <? length p + length (x :: t))%nat with true
        by (symmetry; apply Nat.ltb_lt; simpl; lia).
      rewrite nth_error_app2 by lia. rewrite Nat.sub_diag. simpl.
      destruct (decide (x = h)) as [->|Ne].
      * rewrite decide_True by reflexivity.
        assert (Hd : drop (S (length p)) (p ++ h :: t) = t) by (clear; induction p; simpl; auto).
        rewrite take_app_length, Hd.
        replace (S (length p)) with (length (p ++ [h])) by (rewrite length_app; simpl; lia).
        destruct t as [|y t'].
        -- simpl. rewrite app_nil_r. destruct f; simpl; [reflexivity|].
           rewrite length_app. simpl.
           replace (length p + 1 <? length p)%nat with false by (symmetry; apply Nat.ltb_ge; lia).
           reflexivity.
        -- replace (p ++ y :: t') with ((p ++ [y]) ++ t') by (rewrite <- app_assoc; reflexivity).
           replace (length (p ++ [h])) with (length (p ++ [y])) by (rewrite !length_app; reflexivity).
           rewrite IH by (simpl in Hf; lia). rewrite <- app_assoc. reflexivity.
      * rewrite decide_False by congruence.
        replace (S (length p)) with (length (p ++ [x])) by (rewrite length_app; simpl; lia).
        replace (p ++ x :: t) with ((p ++ [x]) ++ t) by (rewrite <- app_assoc; reflexivity).
        rewrite IH by lia. rewrite <- app_assoc. reflexivity.
Qed.

Lemma unbind_loop_skip h l : unbind_loop h (length l) 0 l = skip_after h l.
Proof. exact (unbind_loop_app h (length l) [] l (le_n _)). Qed.

Lemma skip_after_filter h l :
  (forall i, l !! i = Some h -> l !! S i <> Some h) ->
  skip_after h l = filter (fun x => x <> h) l.
Proof.
  remember (length l) as n eqn:En. revert l En.
  induction n as [n IH] using (well_founded_induction lt_wf). intros l En Hn.
  destruct l as [|x t]; [reflexivity|]. simpl. rewrite filter_cons.
  destruct (decide (x = h)) as [->|Ne].
  - rewrite decide_False by (intros C; apply C; reflexivity).
    destruct t as [|y t']; [reflexivity|].
    assert (y <> h) by (intros ->; exact (Hn 0%nat eq_refl eq_refl)).
    rewrite filter_cons, decide_True by assumption. f_equal.
    apply (IH (length t')); [simpl in En; lia|reflexivity|]. intros i Hi. exact (Hn (S (S i)) Hi).
  - rewrite decide_True by assumption. f_equal. apply (IH (length t)); [simpl in En; lia|reflexivity|].
    intros i Hi. exact (Hn (S i) Hi).
Qed.

Lemma skip_after_replicate h k : skip_after h (replicate k h) = replicate (Nat.div2 k) h.
Proof.
  induction k as [k IH] using (well_founded_induction lt_wf).
  destruct k as [|[|k]]; simpl; rewrite ?decide_True by reflexivity; try reflexivity.
  f_equal. apply IH. lia.
Qed.

(** Binding handlers [hs] one after another to an event [e] (an own key,
    not an [Object.prototype] member) makes [_fireEvent e] call the
    handlers bound before, then [hs] in the order they were bound; the
    other events keep their handlers. *)
Lemma bind_fire_order e hs ev :
  inherited e = false ->
  exists ev', bind_all (VStr e) hs ev = Some ev' /\
    _fireEvent (VStr e) ev' = Some (default [] (ev !! e) ++ hs) /\
    (forall e', e' <> e -> ev' !! e' = ev !! e').
Proof.
  intros Hi. revert ev. induction hs as [|h t IH]; intros ev.
  - exists ev. simpl. rewrite Hi, app_nil_r. auto.
  - assert (Hb : bind (VStr e) (VFun h) ev = Some (<[e:=default [] (ev !! e) ++ [h]]> ev))
      by (unfold bind; rewrite Hi; reflexivity).
    cbn [bind_all]. rewrite Hb.
    destruct (IH (<[e:=default [] (ev !! e) ++ [h]]> ev)) as (ev' & E1 & E2 & E3).
    exists ev'. split; [exact E1|]. split.
    + rewrite E2, lookup_insert_eq. simpl. rewrite <- app_assoc. reflexivity.
    + intros e' Ne. rewrite E3 by exact Ne. apply lookup_insert_ne. congruence.
Qed.

(** [unbind(e, h)] removes every copy of [h] from the handlers of [e]
    when no two copies sit next to each other. *)
Lemma unbind_removes_all e h l ev :
  inherited e = false -> ev !! e = Some l ->
  (forall i, l !! i = Some h -> l !! S i <> Some h) ->
  unbind (VStr e) (VFun h) ev = Some (<[e := filter (fun x => x <> h) l]> ev).
Proof.
  intros Hi Hl Hn. unfold unbind. rewrite Hi, Hl, unbind_loop_skip, skip_after_filter by exact Hn.
  reflexivity.
Qed.

(** With [k] adjacent copies of [h] as the handlers of [e], one
    [unbind(e, h)] leaves [k / 2] copies (the splice loop skips the
    element after each removal): binding [h] twice and unbinding it once
    leaves it bound. *)
Lemma unbind_adjacent_copies e h k ev :
  inherited e = false -> ev !! e = Some (replicate k h) ->
  unbind (VStr e) (VFun h) ev = Some (<[e := replicate (Nat.div2 k) h]> ev).
Proof.
  intros Hi Hl. unfold unbind. rewrite Hi, Hl, length_replicate.
  rewrite <- (length_replicate k h) at 1. rewrite unbind_loop_skip, skip_after_replicate.
  reflexivity.
Qed.

Lemma skip_after_fresh h l : h ∉ l -> skip_after h (l ++ [h]) = l.
Proof.
  induction l as [|x t IH]; intros Hh.
  - simpl. rewrite decide_True by reflexivity. reflexivity.
  - rewrite not_elem_of_cons in Hh. destruct Hh as [Hx Ht]. simpl.
    rewrite decide_False by congruence. rewrite IH by exact Ht. reflexivity.
Qed.

(** Binding a handler [h] that is not bound to [e] and unbinding it again
    gives back the handlers [e] had, in their order. *)
Lemma bind_unbind_roundtrip e h ev :
  inherited e = false -> h ∉ default [] (ev !! e) ->
  exists ev1 ev2, bind (VStr e) (VFun h) ev = Some ev1 /\
    unbind (VStr e) (VFun h) ev1 = Some ev2 /\
    _fireEvent (VStr e) ev2 = _fireEvent (VStr e) ev.
Proof.
  intros Hi Hh. set (l := default [] (ev !! e)) in *.
  exists (<[e := l ++ [h]]> ev), (<[e := l]> ev).
  split; [unfold bind; rewrite Hi; reflexivity|]. split.
  - unfold unbind. rewrite Hi, lookup_insert_eq, unbind_loop_skip, skip_after_fresh by exact Hh.
    rewrite insert_insert_eq. reflexivity.
  - unfold _fireEvent. rewrite Hi, lookup_insert_eq. reflexivity.
Qed.
Lemma bind_fire_order_witness :
  exists ev', bind_all (VStr "enterFrame") [1%positive; 2%positive] ∅ = Some ev' /\
    _fireEvent (VStr "enterFrame") ev' = Some (default [] ((∅ : events) !! "enterFrame") ++ [1%positive; 2%positive]) /\
    (forall e', e' <> "enterFrame" -> ev' !! e' = (∅ : events) !! e').
Proof. apply (bind_fire_order "enterFrame" [1%positive; 2%positive] ∅). reflexivity. Defined.

Lemma unbind_removes_all_witness :
  unbind (VStr "loopComplete") (VFun 1%positive) {[ "loopComplete" := [1%positive; 2%positive; 1%positive] ]}
  = Some (<[ "loopComplete" := filter (fun x => x <> 1%positive) [1%positive; 2%positive; 1%positive] ]>
            {[ "loopComplete" := [1%positive; 2%positive; 1%positive] ]}).
Proof.
  apply (unbind_removes_all "loopComplete" 1%positive [1%positive; 2%positive; 1%positive]).
  - reflexivity.
  - reflexivity.
  - intros [|[|[|i]]] H; simpl in *; congruence.
Defined.

Lemma unbind_adjacent_copies_witness :
  unbind (VStr "enterFrame") (VFun 7%positive) {[ "enterFrame" := replicate 2 7%positive ]}
  = Some (<[ "enterFrame" := replicate (Nat.div2 2) 7%positive ]> {[ "enterFrame" := replicate 2 7%positive ]}).
Proof. apply (unbind_adjacent_copies "enterFrame" 7%positive 2); reflexivity. Defined.

Lemma bind_unbind_roundtrip_witness :
  exists ev1 ev2, bind (VStr "enterFrame") (VFun 3%positive) {[ "enterFrame" := [1%positive] ]} = Some ev1 /\
    unbind (VStr "enterFrame") (VFun 3%positive) ev1 = Some ev2 /\
    _fireEvent (VStr "enterFrame") ev2 = _fireEvent (VStr "enterFrame") {[ "enterFrame" := [1%positive] ]}.
Proof.
  apply (bind_unbind_roundtrip "enterFrame" 3%positive {[ "enterFrame" := [1%positive] ]}).
  - reflexivity.
  - change (3%positive ∉ [1%positive]). rewrite list_elem_of_singleton. discriminate.
Defined.

End EventFacts.

Module EasingFacts.
Import Val Easing.












End EasingFacts.

Module ScheduleFacts.
Import Tick Schedule.





End ScheduleFacts.

Module PlaybackFacts.
Import Val RealKeyframe Goto Playback.




(** [play()] after [stop()] starts the loop over: frame 0, both start
    times set to the time of the call, the animation playing with no
    repetition limit. *)
Lemma stop_play_restarts now s :
  exists s', play now (stop s) = Some s' /\ isPlaying s' = true /\ currentFrame s' = 0 /\
    loopStartTime s' = Some now /\ startTime s' = Some now /\ repsRemaining s' = -1.
Proof. eexists. split; [reflexivity|]. repeat split. Qed.




End PlaybackFacts.

Module ColourFacts.
Import JStr Val Props.

Lemma hex_char_facts a :
  is_hex a = true ->
  is_space a = false /\ (a =? "-")%char = false /\ (a =? "+")%char = false /\
  (a =? "#")%char = false /\ (a =? "x")%char = false /\ (a =? "X")%char = false /\
  is_digit a || is_hex a = true.
Proof. destruct a as [[][][][][][][][]]; vm_compute; intros H; try discriminate H; repeat split. Qed.

Lemma hex_val_range a v : hex_val a = Some v -> 0 <= v < 16.
Proof.
  intros H. destruct a as [[][][][][][][][]]; vm_compute in H; try discriminate H;
  injection H as <-; lia.
Qed.

Lemma is_hex_val a v : hex_val a = Some v -> is_hex a = true.
Proof. unfold is_hex. intros ->. reflexivity. Qed.

Lemma hexToDec_pair a b va vb :
  hex_val a = Some va -> hex_val b = Some vb ->
  hexToDec (String a (String b EmptyString)) = Fin (inject_Z (16 * va + vb)).
Proof.
  intros Ha Hb.
  destruct (hex_char_facts a (is_hex_val _ _ Ha)) as (Sa & Ma & Pa & _).
  destruct (hex_char_facts b (is_hex_val _ _ Hb)) as (_ & _ & _ & _ & Xb & XXb & _).
  unfold hexToDec. simpl. rewrite Sa, Ma, Pa, Xb, XXb, andb_false_r.
  simpl. rewrite (is_hex_val _ _ Ha), (is_hex_val _ _ Hb). simpl. rewrite Ha, Hb. do 2 f_equal. lia.
Qed.

(** [hexToRGBArr] reads a six-digit colour [#rrggbb] as the three
    two-digit hexadecimal numbers [rr], [gg], [bb]. *)
Lemma hexToRGBArr_six a b c d e f va vb vc vd ve vf :
  hex_val a = Some va -> hex_val b = Some vb -> hex_val c = Some vc ->
  hex_val d = Some vd -> hex_val e = Some ve -> hex_val f = Some vf ->
  hexToRGBArr (String "#" (String a (String b (String c (String d (String e (String f EmptyString)))))))
  = [Fin (inject_Z (16 * va + vb)); Fin (inject_Z (16 * vc + vd)); Fin (inject_Z (16 * ve + vf))].
Proof.
  intros Ha Hb Hc Hd He Hf.
  unfold hexToRGBArr. simpl.
  repeat match goal with
  | H : hex_val ?x = Some _ |- context [(?x =? "#")%char] =>
      let F := fresh in
      destruct (hex_char_facts x (is_hex_val _ _ H)) as (_ & _ & _ & F & _); rewrite F
  end.
  simpl. rewrite (hexToDec_pair a b va vb), (hexToDec_pair c d vc vd), (hexToDec_pair e f ve vf)
    by assumption.
  reflexivity.
Qed.

(** The shorthand [#rgb] is read as [#rrggbb]: each digit counts twice. *)
Lemma hexToRGBArr_three a b c va vb vc :
  hex_val a = Some va -> hex_val b = Some vb -> hex_val c = Some vc ->
  hexToRGBArr (String "#" (String a (String b (String c EmptyString))))
  = [Fin (inject_Z (17 * va)); Fin (inject_Z (17 * vb)); Fin (inject_Z (17 * vc))].
Proof.
  intros Ha Hb Hc.
  unfold hexToRGBArr. simpl.
  repeat match goal with
  | H : hex_val ?x = Some _ |- context [(?x =? "#")%char] =>
      let F := fresh in
      destruct (hex_char_facts x (is_hex_val _ _ H)) as (_ & _ & _ & F & _); rewrite F
  end.
  simpl. rewrite (hexToDec_pair a a va va), (hexToDec_pair b b vb vb), (hexToDec_pair c c vc vc)
    by assumption.
  repeat f_equal; lia.
Qed.

Lemma num_to_string_Z z : num_to_string (Fin (inject_Z z)) = Z_to_string z.
Proof.
  unfold num_to_string, Q_to_string, is_integer. rewrite Qfloor_Z.
  rewrite Qeq_bool_refl. reflexivity.
Qed.

Lemma byte_string_digits z :
  0 <= z < 256 ->
  forallb is_digit (list_ascii_of_string (Z_to_string z)) = true /\ Z_to_string z <> EmptyString.
Proof.
  intros Hz.
  assert (Hall : forallb (fun n => forallb is_digit (list_ascii_of_string (Z_to_string (Z.of_nat n)))
                                   && negb (is_empty (Z_to_string (Z.of_nat n)))) (seq 0 256) = true)
    by (vm_compute; reflexivity).
  rewrite forallb_forall in Hall.
  specialize (Hall (Z.to_nat z)). rewrite Z2Nat.id in Hall by lia.
  assert (Hin : In (Z.to_nat z) (seq 0 256)) by (apply in_seq; lia).
  apply Hall, andb_true_iff in Hin. destruct Hin as [H1 H2]. split; [exact H1|].
  intros E. rewrite E in H2. discriminate H2.
Qed.

Lemma span_digits ds c rest :
  forallb is_digit (list_ascii_of_string ds) = true -> is_digit c = false ->
  span is_digit (append ds (String c rest)) = (ds, String c rest).
Proof.
  intros Hd Hc. induction ds as [|x t IH]; simpl in *.
  - rewrite Hc. reflexivity.
  - apply andb_true_iff in Hd. destruct Hd as [Hx Ht]. rewrite Hx, IH by exact Ht. reflexivity.
Qed.

Lemma digits_ws_then_ok sep ds rest :
  forallb is_digit (list_ascii_of_string ds) = true -> ds <> EmptyString ->
  is_digit sep = false -> is_space sep = false ->
  digits_ws_then sep (append ds (String sep rest)) = Some rest.
Proof.
  intros Hd Hn Hs Hw. unfold digits_ws_then. rewrite span_digits by assumption.
  destruct ds; [contradiction|]. simpl. rewrite Hw, Ascii.eqb_refl. reflexivity.
Qed.

Lemma is_hex_some a : is_hex a = true -> exists v, hex_val a = Some v.
Proof. unfold is_hex. destruct (hex_val a); [eauto|discriminate]. Qed.

(** A hexadecimal colour string ([#rgb] or [#rrggbb], any case) is turned
    by [hexToRGBStr] into the string [rgb(r,g,b)] of its three channel
    values, each in [0, 255], and that string passes [isRGBString]. *)
Lemma hexToRGBStr_of_hex s :
  isHexString s = true ->
  exists r g b, 0 <= r < 256 /\ 0 <= g < 256 /\ 0 <= b < 256 /\
    hexToRGBArr s = [Fin (inject_Z r); Fin (inject_Z g); Fin (inject_Z b)] /\
    hexToRGBStr s = append "rgb(" (append (Z_to_string r) (append ","
                      (append (Z_to_string g) (append "," (append (Z_to_string b) ")"))))) /\
    isRGBString (hexToRGBStr s) = true.
Proof.
  intros H.
  assert (Hpre : exists r g b, 0 <= r < 256 /\ 0 <= g < 256 /\ 0 <= b < 256 /\
            hexToRGBArr s = [Fin (inject_Z r); Fin (inject_Z g); Fin (inject_Z b)]).
  { destruct s as [|h t]; [discriminate|]. unfold isHexString in H.
    apply andb_true_iff in H. destruct H as [H Hl]. apply andb_true_iff in H. destruct H as [Hh Ht].
    apply Ascii.eqb_eq in Hh. subst h.
    destruct t as [|a [|b [|c [|d [|e [|f [|x t]]]]]]]; simpl in Hl, Ht; try discriminate Hl;
      repeat (apply andb_true_iff in Ht; destruct Ht as [?Hx Ht]);
      repeat match goal with Hx : is_hex ?y = true |- _ =>
        let v := fresh "v" in let Hv := fresh "Hv" in
        destruct (is_hex_some _ Hx) as [v Hv]; clear Hx; pose proof (hex_val_range _ _ Hv) end.
    - erewrite hexToRGBArr_three by eassumption.
      refine (ex_intro _ _ (ex_intro _ _ (ex_intro _ _ (conj _ (conj _ (conj _ eq_refl)))))); lia.
    - erewrite hexToRGBArr_six by eassumption.
      refine (ex_intro _ _ (ex_intro _ _ (ex_intro _ _ (conj _ (conj _ (conj _ eq_refl)))))); lia. }
  destruct Hpre as (r & g & b & Hr & Hg & Hb & E).
  assert (Hs : hexToRGBStr s = append "rgb(" (append (Z_to_string r) (append ","
                 (append (Z_to_string g) (append "," (append (Z_to_string b) ")")))))).
  { unfold hexToRGBStr.
    replace (isRGBString s) with false.
    2: { destruct s as [|h t]; [reflexivity|]. unfold isHexString in H.
         apply andb_true_iff in H. destruct H as [H _]. apply andb_true_iff in H. destruct H as [Hh _].
         apply Ascii.eqb_eq in Hh. subst h. destruct t as [|? [|? [|? ?]]]; reflexivity. }
    rewrite E. simpl nth. rewrite !num_to_string_Z. reflexivity. }
  exists r, g, b. do 5 (split; [assumption|]). rewrite Hs.
  destruct (byte_string_digits r Hr) as [Dr Nr].
  destruct (byte_string_digits g Hg) as [Dg Ng].
  destruct (byte_string_digits b Hb) as [Db Nb].
  unfold isRGBString. simpl.
  match goal with |- context [digits_ws_then _ (append ?e ?x)] => change (append e x) with x end.
  change (append "," ?x) with (String "," x).
  rewrite (digits_ws_then_ok "," (Z_to_string r)) by (assumption || reflexivity).
  change (append "," ?x) with (String "," x).
  rewrite (digits_ws_then_ok "," (Z_to_string g)) by (assumption || reflexivity).
  rewrite (digits_ws_then_ok ")" (Z_to_string b)) by (assumption || reflexivity).
  reflexivity.
Qed.
Lemma hexToRGBArr_six_witness :
  hexToRGBArr "#ff8000"%string = [Fin (inject_Z (16 * 15 + 15)); Fin (inject_Z (16 * 8 + 0)); Fin (inject_Z (16 * 0 + 0))].
Proof.
  apply (hexToRGBArr_six "f" "f" "8" "0" "0" "0" 15 15 8 0 0 0); reflexivity.
Defined.

Lemma hexToRGBArr_three_witness :
  hexToRGBArr "#fA0"%string = [Fin (inject_Z (17 * 15)); Fin (inject_Z (17 * 10)); Fin (inject_Z (17 * 0))].
Proof.
  apply (hexToRGBArr_three "f" "A" "0" 15 10 0); reflexivity.
Defined.

Lemma hexToRGBStr_of_hex_witness :
  exists r g b, 0 <= r < 256 /\ 0 <= g < 256 /\ 0 <= b < 256 /\
    hexToRGBArr "#ff8000"%string = [Fin (inject_Z r); Fin (inject_Z g); Fin (inject_Z b)] /\
    hexToRGBStr "#ff8000"%string = append "rgb(" (append (Z_to_string r) (append ","
                      (append (Z_to_string g) (append "," (append (Z_to_string b) ")"))))) /\
    isRGBString (hexToRGBStr "#ff8000"%string) = true.
Proof.
  apply (hexToRGBStr_of_hex "#ff8000"%string). vm_compute. reflexivity.
Defined.

End ColourFacts.

Module ModifierFacts.
Import JStr Val Props.

Lemma is_op_not_space c : is_op c = true -> is_space c = false.
Proof. destruct c as [[][][][][][][][]]; vm_compute; intros H; try discriminate H; reflexivity. Qed.

(** A string passing [isModifierString] ([/^\s*(\+|\-|\*|\/)\=/]) has its
    operator found by [getModifier] ([/(\+|\-|\*|\/)\=/]): the first
    match is the one after the leading white space, so the [null[0]]
    error of [getModifier] cannot happen on a modifier string. *)
Lemma getModifier_of_modifier_string s :
  isModifierString s = true ->
  exists o r, skip_ws s = String o (String "=" r) /\ is_op o = true /\ getModifier s = Some o.
Proof.
  unfold isModifierString. induction s as [|c t IH]; [discriminate|]. simpl.
  destruct (is_space c) eqn:Sp.
  - intros H. destruct (IH H) as (o & r & E & Ho & G). exists o, r. split; [exact E|]. split; [exact Ho|].
    assert (Hc : is_op c = false).
    { destruct (is_op c) eqn:Oc; [|reflexivity]. rewrite (is_op_not_space _ Oc) in Sp. discriminate. }
    destruct t as [|e t']; [discriminate|]. rewrite Hc. simpl. exact G.
  - destruct t as [|e t']; [discriminate|]. intros H.
    exists c, t'. apply andb_true_iff in H. destruct H as [Ho He]. apply Ascii.eqb_eq in He. subst e.
    split; [reflexivity|]. split; [exact Ho|]. rewrite Ho. reflexivity.
Qed.
Lemma getModifier_of_modifier_string_witness :
  exists o r, skip_ws "  +=10"%string = String o (String "=" r) /\ is_op o = true /\
    getModifier "  +=10"%string = Some o.
Proof.
  apply (getModifier_of_modifier_string "  +=10"%string). vm_compute. reflexivity.
Defined.

End ModifierFacts.

Module KeyRoundTripFacts.
Import JStr Val RealKeyframe.

Lemma list_ascii_append a b :
  list_ascii_of_string (append a b) = list_ascii_of_string a ++ list_ascii_of_string b.
Proof. induction a as [|c t IH]; simpl; [reflexivity|]. rewrite IH. reflexivity. Qed.

Lemma digit_char d : 0 <= d < 10 ->
  is_digit (ascii_of_nat (Z.to_nat (48 + d))) = true /\
  digit_val (ascii_of_nat (Z.to_nat (48 + d))) = d.
Proof.
  intros Hd. assert (d = 0 \/ d = 1 \/ d = 2 \/ d = 3 \/ d = 4 \/ d = 5 \/ d = 6 \/ d = 7 \/ d = 8 \/ d = 9)
    by lia.
  repeat destruct H as [->|H]; try (subst d); split; reflexivity.
Qed.

Lemma digits_rev_digits f n : 0 <= n -> forallb is_digit (list_ascii_of_string (digits_rev f n)) = true.
Proof.
  revert n. induction f as [|f IH]; intros n Hn; [reflexivity|]. simpl.
  destruct (digit_char (n mod 10) (Z.mod_pos_bound n 10 ltac:(lia))) as [D _].
  destruct (n <? 10).
  - simpl. rewrite D. reflexivity.
  - rewrite list_ascii_append, forallb_app, IH by (apply Z.div_pos; lia).
    simpl. rewrite D. reflexivity.
Qed.

Lemma digits_value_append acc a b : digits_value acc (append a b) = digits_value (digits_value acc a) b.
Proof. revert acc. induction a as [|c t IH]; intros acc; simpl; [reflexivity|]. apply IH. Qed.

Lemma digits_rev_value f n : 0 <= n < 10 ^ Z.of_nat f -> digits_value 0 (digits_rev f n) = n.
Proof.
  revert n. induction f as [|f IH]; intros n Hn.
  - simpl in *. lia.
  - simpl. destruct (digit_char (n mod 10) (Z.mod_pos_bound n 10 ltac:(lia))) as [_ V].
    destruct (n <? 10) eqn:E.
    + simpl. rewrite V. apply Z.ltb_lt in E. rewrite Z.mod_small by lia. reflexivity.
    + rewrite digits_value_append, IH.
      * simpl. rewrite V. pose proof (Z.div_mod n 10). lia.
      * rewrite Nat2Z.inj_succ, Z.pow_succ_r in Hn by lia. split; [apply Z.div_pos; lia|].
        apply Z.div_lt_upper_bound; lia.
Qed.

Lemma digits_rev_nonempty f n : digits_rev (S f) n <> EmptyString.
Proof.
  simpl. destruct (n <? 10); [discriminate|].
  destruct (digits_rev f (n / 10)); discriminate.
Qed.

Lemma Z_to_string_nonneg z : 0 <= z ->
  forallb is_digit (list_ascii_of_string (Z_to_string z)) = true /\ Z_to_string z <> EmptyString /\
  digits_value 0 (Z_to_string z) = z.
Proof.
  intros Hz. unfold Z_to_string. replace (z <? 0) with false by (symmetry; apply Z.ltb_ge; lia).
  split; [apply digits_rev_digits; exact Hz|]. split; [apply digits_rev_nonempty|].
  apply digits_rev_value. split; [exact Hz|].
  destruct (Z.eq_dec z 0) as [->|Nz]; [simpl; lia|].
  pose proof (Z.log2_spec z ltac:(lia)) as [_ H2].
  rewrite Nat2Z.inj_succ, Z2Nat.id by (apply Z.log2_nonneg).
  eapply Z.lt_le_trans; [exact H2|]. apply Z.pow_le_mono_l. pose proof (Z.log2_nonneg z). lia.
Qed.

Lemma digit_facts c : is_digit c = true -> is_space c = false /\ (c =? "-")%char = false /\
  (c =? "+")%char = false.
Proof. destruct c as [[][][][][][][][]]; vm_compute; intros H; try discriminate H; auto. Qed.

Lemma strip_ws_digits s : forallb is_digit (list_ascii_of_string s) = true -> strip_ws s = s.
Proof.
  induction s as [|c t IH]; simpl; [reflexivity|].
  intros H. apply andb_true_iff in H. destruct H as [Hc Ht].
  destruct (digit_facts c Hc) as [Sc _]. rewrite Sc, IH by exact Ht. reflexivity.
Qed.

Lemma span_all p s : forallb p (list_ascii_of_string s) = true -> span p s = (s, EmptyString).
Proof.
  induction s as [|c t IH]; simpl; [reflexivity|].
  intros H. apply andb_true_iff in H. destruct H as [Hc Ht]. rewrite Hc, IH by exact Ht. reflexivity.
Qed.

Lemma trailing_nondigits_digits s : forallb is_digit (list_ascii_of_string s) = true -> trailing_nondigits s = EmptyString.
Proof.
  unfold trailing_nondigits. intros H.
  assert (Hr : forallb is_digit (List.rev (list_ascii_of_string s)) = true).
  { rewrite forallb_forall in *. intros x Hx. apply H. apply in_rev. exact Hx. }
  destruct (List.rev (list_ascii_of_string s)) as [|c t]; [reflexivity|].
  simpl in Hr. apply andb_true_iff in Hr. destruct Hr as [Hc _]. simpl. rewrite Hc. reflexivity.
Qed.

(** The keyframe ids [remove] and [framerate] pass around as object keys
    (the decimal string [String(id)]) are read back by [_getRealKeyframe]
    as the same id, for every id [z >= 0], at any frame rate; the key of a
    negative id makes [_getRealKeyframe] throw (no leading digit). *)
Lemma getRealKeyframe_key_roundtrip fps z :
  (0 <= z -> _getRealKeyframe fps (VStr (Z_to_string z)) = KFrame z) /\
  (z < 0 -> _getRealKeyframe fps (VStr (Z_to_string z)) = KThrow).
Proof.
  split.
  - intros Hz. destruct (Z_to_string_nonneg z Hz) as (D & N & V).
    unfold _getRealKeyframe. rewrite strip_ws_digits by exact D.
    rewrite span_all.
    2: { rewrite forallb_forall in *. intros x Hx. rewrite (D x Hx). reflexivity. }
    destruct (Z_to_string z) as [|c t] eqn:E; [contradiction|]. cbv iota beta zeta. simpl is_empty.
    rewrite <- E, trailing_nondigits_digits by (rewrite E; exact D). simpl is_empty. cbv iota.
    unfold parseInt_str. rewrite E. simpl skip_ws.
    simpl in D. apply andb_true_iff in D. destruct D as [Dc Dt].
    destruct (digit_facts c Dc) as (Sc & Mc & Pc). rewrite Sc, Mc, Pc.
    rewrite span_all by (simpl; rewrite Dc, Dt; reflexivity). simpl is_empty. cbv iota.
    rewrite V. f_equal. lia.
  - intros Hz. unfold _getRealKeyframe, Z_to_string.
    replace (z <? 0) with true by (symmetry; apply Z.ltb_lt; lia). reflexivity.
Qed.
Lemma getRealKeyframe_key_roundtrip_witness :
  _getRealKeyframe 30%Q (VStr (Z_to_string 42)) = KFrame 42 /\
  _getRealKeyframe 30%Q (VStr (Z_to_string (-3))) = KThrow.
Proof.
  destruct (getRealKeyframe_key_roundtrip 30%Q 42) as [H1 _].
  destruct (getRealKeyframe_key_roundtrip 30%Q (-3)) as [_ H2].
  split; [apply H1 | apply H2]; lia.
Defined.

End KeyRoundTripFacts.

Module LatestKeyframeFacts.
Import Tick.

Lemma last_nth {A} (l : list A) : JS.last l = nth_error l (pred (length l)).
Proof.
  induction l as [|y l' _] using rev_ind; [reflexivity|].
  unfold JS.last. rewrite rev_unit, length_app. simpl.
  rewrite Nat.add_1_r. simpl. rewrite nth_error_app2 by lia. rewrite Nat.sub_diag. reflexivity.
Qed.

Lemma scan_down_found l cf j x n :
  nth_error l j = Some x -> x < cf -> (j < n)%nat ->
  (forall m y, (j < m)%nat -> (m < n)%nat -> nth_error l m = Some y -> cf <= y) ->
  scan_down l cf n = Some j.
Proof.
  intros Hj Hx. induction n as [|n IH]; intros Hn Hm; [lia|]. simpl.
  destruct (Nat.eq_dec n j) as [->|Ne].
  - rewrite Hj. replace (x <? cf) with true by (symmetry; apply Z.ltb_lt; exact Hx). reflexivity.
  - destruct (nth_error l n) as [y|] eqn:Ey.
    + replace (y <? cf) with false by (symmetry; apply Z.ltb_ge; apply (Hm n y); auto; lia).
      apply IH; [lia|]. intros m y' H1 H2 H3. apply (Hm m y'); auto; lia.
    + apply IH; [lia|]. intros m y' H1 H2 H3. apply (Hm m y'); auto; lia.
Qed.

Lemma scan_down_none l cf n :
  (forall m y, (m < n)%nat -> nth_error l m = Some y -> cf <= y) -> scan_down l cf n = None.
Proof.
  induction n as [|n IH]; intros Hm; [reflexivity|]. simpl.
  destruct (nth_error l n) as [y|] eqn:Ey.
  - replace (y <? cf) with false by (symmetry; apply Z.ltb_ge; apply (Hm n y); auto).
    apply IH. intros m y' H1 H2. apply (Hm m y'); auto.
  - apply IH. intros m y' H1 H2. apply (Hm m y'); auto.
Qed.

(** [_getLatestKeyframeId(lookup)] at the current frame [cf]: 0 at frame
    0; -1 when the last id is below [cf]; otherwise the index of the
    last id strictly below [cf] (at a frame equal to a keyframe id, the
    one before it); and when no id is below [cf], the last index. *)
Lemma getLatestKeyframeId_spec l cf :
  (cf = 0 -> _getLatestKeyframeId l cf = 0) /\
  (cf <> 0 -> forall x, JS.last l = Some x -> x < cf -> _getLatestKeyframeId l cf = -1) /\
  (cf <> 0 -> forall j x, (S j < length l)%nat -> nth_error l j = Some x -> x < cf ->
     (forall m y, (j < m)%nat -> nth_error l m = Some y -> cf <= y) ->
     _getLatestKeyframeId l cf = Z.of_nat j) /\
  (cf <> 0 -> (forall m y, nth_error l m = Some y -> cf <= y) ->
     _getLatestKeyframeId l cf = Z.of_nat (length l) - 1).
Proof.
  unfold _getLatestKeyframeId. split; [|split; [|split]].
  - intros ->. reflexivity.
  - intros Hc x Hl Hx. replace (cf =? 0) with false by (symmetry; apply Z.eqb_neq; exact Hc).
    rewrite Hl. replace (x <? cf) with true by (symmetry; apply Z.ltb_lt; exact Hx). reflexivity.
  - intros Hc j x Hlen Hj Hx Hm. replace (cf =? 0) with false by (symmetry; apply Z.eqb_neq; exact Hc).
    rewrite last_nth. destruct (nth_error l (pred (length l))) as [y|] eqn:Ey.
    + replace (y <? cf) with false by (symmetry; apply Z.ltb_ge; apply (Hm (pred (length l)) y); [lia|exact Ey]).
      rewrite (scan_down_found l cf j x (length l)); [reflexivity|exact Hj|exact Hx|lia|].
      intros m y' H1 _ H3. exact (Hm m y' H1 H3).
    + apply nth_error_None in Ey. lia.
  - intros Hc Hm. replace (cf =? 0) with false by (symmetry; apply Z.eqb_neq; exact Hc).
    rewrite last_nth. destruct (nth_error l (pred (length l))) as [y|] eqn:Ey.
    + replace (y <? cf) with false by (symmetry; apply Z.ltb_ge; exact (Hm _ y Ey)).
      rewrite scan_down_none; [reflexivity|]. intros m y' _ H. exact (Hm m y' H).
    + rewrite scan_down_none; [reflexivity|]. intros m y' _ H. exact (Hm m y' H).
Qed.
Lemma getLatestKeyframeId_spec_witness :
  _getLatestKeyframeId [0; 10; 20] 0 = 0 /\
  _getLatestKeyframeId [0; 10; 20] 25 = -1 /\
  _getLatestKeyframeId [0; 10; 20] 15 = Z.of_nat 1 /\
  _getLatestKeyframeId [10; 20] 5 = Z.of_nat (length [10; 20]) - 1.
Proof.
  destruct (getLatestKeyframeId_spec [0; 10; 20] 0) as [H0 _].
  destruct (getLatestKeyframeId_spec [0; 10; 20] 25) as [_ [H1 _]].
  destruct (getLatestKeyframeId_spec [0; 10; 20] 15) as [_ [_ [H2 _]]].
  destruct (getLatestKeyframeId_spec [10; 20] 5) as [_ [_ [_ H3]]].
  split; [exact (H0 eq_refl)|]. split; [exact (H1 ltac:(discriminate) 20 eq_refl eq_refl)|].
  split.
  - apply (H2 ltac:(discriminate) 1%nat 10); [simpl; lia|reflexivity|reflexivity|].
    intros [|[|[|m]]] y Hm E; simpl in E; try lia; try (destruct m; discriminate); injection E as <-; lia.
  - apply H3; [discriminate|].
    intros [|[|m]] y E; simpl in E; try discriminate; try (destruct m; discriminate); injection E as <-; lia.
Defined.

End LatestKeyframeFacts.
